(** * simple-media-encoder: the encoder core ([src/encoder/encoder.cpp])

    A shallow embedding of [MediaEncoder]: option validation, the bitrate
    planner, command construction, and the handlers that follow the external
    ffmpeg process ([UpdateProgress], [EndCompression], the [errorOccurred]
    handler installed by the constructor).

    Conventions.
    - [double] is IEEE binary64, the kernel's primitive [float].
    - [int] and [long] are [Z]; an operation whose C++ result is not
      representable is undefined behaviour.
    - [std::optional<T>] is [option T].  [*o] and [o->f] on an empty optional
      are undefined behaviour; the embedding is total and returns
      [Undefined (EmptyOptional field)] there.
    - [QString] values built with [QString::number] keep the number as a
      symbolic piece; text that is scanned (process output, custom
      arguments) is a plain [string].
    - Signals are recorded, in emission order, in a notification log. *)

From Stdlib Require Import ZArith Floats List String Ascii Bool Lia.
Import ListNotations.

Set Warnings "-inexact-float".
Local Open Scope string_scope.
Local Open Scope list_scope.
Local Open Scope Z_scope.

(** ** Undefined behaviour and the result of a run *)

Inductive UB : Type :=
| EmptyOptional (field : string)      (* [*o] or [o->f] with [!o.has_value()] *)
| DoubleToIntegral (what : string)    (* double -> int/long, value not representable *)
| SignedOverflow (what : string).     (* int arithmetic outside the int range *)

Inductive outcome (A : Type) : Type :=
| Done (a : A)
| Undefined (u : UB).
Arguments Done {A} a.
Arguments Undefined {A} u.

Definition obind {A B} (m : outcome A) (f : A -> outcome B) : outcome B :=
  match m with
  | Done a => f a
  | Undefined u => Undefined u
  end.

Declare Scope outcome_scope.
Delimit Scope outcome_scope with outcome.
Notation "x <- m ;; k" := (obind m (fun x => k))
  (at level 61, m at next level, right associativity) : outcome_scope.
Local Open Scope outcome_scope.

(** [*o]: the value of an optional, undefined when it is empty. *)
Definition deref {A} (field : string) (o : option A) : outcome A :=
  match o with
  | Some a => Done a
  | None => Undefined (EmptyOptional field)
  end.

(** [o.value_or(d)] *)
Definition value_or {A} (o : option A) (d : A) : A :=
  match o with
  | Some a => a
  | None => d
  end.

(** [o.has_value()] *)
Definition has_value {A} (o : option A) : bool :=
  match o with
  | Some _ => true
  | None => false
  end.

(** ** Numbers *)

Definition double := float.

Definition INT_MIN : Z := - 2 ^ 31.
Definition INT_MAX : Z := 2 ^ 31 - 1.
(* long is 64 bits wide (LP64) *)
Definition LONG_MIN : Z := - 2 ^ 63.
Definition LONG_MAX : Z := 2 ^ 63 - 1.

(** Integral to double: the nearest binary64 value. *)
Definition to_double (z : Z) : double :=
  SF2Prim (binary_normalize prec emax z 0 false).

(** The integral part of a double (truncation toward zero); [None] for NaN
    and the infinities. *)
Definition trunc (d : double) : option Z :=
  match Prim2SF d with
  | S754_zero _ => Some 0
  | S754_finite s m e =>
      let a := match e with
               | Z0 => Zpos m
               | Zpos p => Zpos m * 2 ^ Zpos p
               | Zneg p => Zpos m / 2 ^ Zpos p
               end in
      Some (if s then - a else a)
  | S754_infinity _ => None
  | S754_nan => None
  end.

Definition in_range (lo hi z : Z) : bool := (lo <=? z) && (z <=? hi).

(** Conversion of a double to [int]: undefined unless the truncated value
    fits. *)
Definition double_to_int (what : string) (d : double) : outcome Z :=
  match trunc d with
  | Some z => if in_range INT_MIN INT_MAX z then Done z
              else Undefined (DoubleToIntegral what)
  | None => Undefined (DoubleToIntegral what)
  end.

Definition double_to_long (what : string) (d : double) : outcome Z :=
  match trunc d with
  | Some z => if in_range LONG_MIN LONG_MAX z then Done z
              else Undefined (DoubleToIntegral what)
  | None => Undefined (DoubleToIntegral what)
  end.

(** [int] arithmetic: the mathematical result when it is an [int]. *)
Definition int_result (what : string) (z : Z) : outcome Z :=
  if in_range INT_MIN INT_MAX z then Done z else Undefined (SignedOverflow what).

(** [qMax(a, b)] is [(a < b) ? b : a]. *)
Definition qMax (a b : double) : double :=
  if PrimFloat.ltb a b then b else a.

(** ** Text *)

Definition chr_in (lo hi c : ascii) : bool :=
  (nat_of_ascii lo <=? nat_of_ascii c)%nat && (nat_of_ascii c <=? nat_of_ascii hi)%nat.

Definition chr_is (a c : ascii) : bool := Ascii.eqb a c.

Definition LF : ascii := ascii_of_nat 10.

(** [\d] *)
Definition is_digit (c : ascii) : bool := chr_in "0" "9" c.

(** [\s] and [QChar::isSpace] on ASCII: space, and TAB, LF, VT, FF, CR. *)
Definition is_space (c : ascii) : bool :=
  chr_is " " c || chr_in (ascii_of_nat 9) (ascii_of_nat 13) c.

(** [.] without the dot-matches-everything option: any character but a
    newline. *)
Definition is_dot (c : ascii) : bool := negb (chr_is LF c).

Fixpoint drop (n : nat) (s : string) : string :=
  match n, s with
  | O, _ => s
  | S n', String _ s' => drop n' s'
  | S _, EmptyString => EmptyString
  end.

Fixpoint take (n : nat) (s : string) : string :=
  match n, s with
  | S n', String c s' => String c (take n' s')
  | _, _ => EmptyString
  end.

Fixpoint rev_onto (s acc : string) : string :=
  match s with
  | EmptyString => acc
  | String c s' => rev_onto s' (String c acc)
  end.

Definition srev (s : string) : string := rev_onto s EmptyString.

Fixpoint trim_left (s : string) : string :=
  match s with
  | String c s' => if is_space c then trim_left s' else s
  | EmptyString => EmptyString
  end.

(** [QString::trimmed()] *)
Definition trimmed (s : string) : string :=
  srev (trim_left (srev (trim_left s))).

Definition isEmpty (s : string) : bool :=
  match s with
  | EmptyString => true
  | String _ _ => false
  end.

(** ** Regular expressions

    The fragment of PCRE that the three patterns of the source use, with
    PCRE's matching order: alternatives left to right, greedy repetition,
    backtracking.  [Recurse] is [(?1)] for a pattern whose group 1 is the
    whole pattern. *)

Inductive regex : Type :=
| Eps
| Chr (p : ascii -> bool)
| Seq (r1 r2 : regex)
| Alt (r1 r2 : regex)
| Star (r : regex)
| Ahead (r : regex)
| Recurse.

Definition Plus (r : regex) : regex := Seq r (Star r).

Fixpoint Lit (s : string) : regex :=
  match s with
  | EmptyString => Eps
  | String c s' => Seq (Chr (chr_is c)) (Lit s')
  end.

(** [go recurse r s k]: match [r] at the start of [s] and hand the rest to
    the continuation [k]; the answer is what [k] returns for the first way
    of matching that [k] accepts.  A repetition runs at most [length s]
    times because every round must consume a character.  [recurse] is what
    [(?1)] does. *)
Section Matcher.
Variable recurse : string -> (string -> option string) -> option string.

Fixpoint go (r : regex) (s : string) (k : string -> option string)
  {struct r} : option string :=
  match r with
  | Eps => k s
  | Chr p =>
      match s with
      | String c s' => if p c then k s' else None
      | EmptyString => None
      end
  | Seq r1 r2 => go r1 s (fun s' => go r2 s' k)
  | Alt r1 r2 =>
      match go r1 s k with
      | Some rest => Some rest
      | None => go r2 s k
      end
  | Star r1 =>
      (fix loop (n : nat) (s : string) {struct n} : option string :=
         match n with
         | O => k s
         | S n' =>
             match go r1 s (fun s' =>
                              if (String.length s' <? String.length s)%nat
                              then loop n' s' else None) with
             | Some rest => Some rest
             | None => k s
             end
         end) (String.length s) s
  | Ahead r1 =>
      match go r1 s Some with
      | Some _ => k s
      | None => None
      end
  | Recurse => recurse s k
  end.
End Matcher.

(** [(?1)] nested at most [depth] times.  In the one pattern that uses it
    every nesting first consumes a dash, a space and a white-space
    character, so a subject of length [n] never nests more than [n]
    times. *)
Fixpoint recursion (depth : nat) (top : regex) (s : string)
  (k : string -> option string) : option string :=
  match depth with
  | O => None
  | S d => go (recursion d top) top s k
  end.

Definition rmatch (depth : nat) (top r : regex) (s : string)
  (k : string -> option string) : option string :=
  go (recursion depth top) r s k.

(** The rest of [s] after a match of [r] at its start. *)
Definition match_at (r : regex) (s : string) : option string :=
  rmatch (String.length s) r r s Some.

(** Leftmost match: the text before it, the matched text, the text after. *)
Fixpoint search_from (r : regex) (before : string) (s : string)
  : option (string * string * string) :=
  match match_at r s with
  | Some rest =>
      Some (srev before, take (String.length s - String.length rest) s, rest)
  | None =>
      match s with
      | EmptyString => None
      | String c s' => search_from r (String c before) s'
      end
  end.

Definition search (r : regex) (s : string) : option (string * string * string) :=
  search_from r EmptyString s.

(** [QRegularExpression(r).match(s).hasMatch()] *)
Definition hasMatch (r : regex) (s : string) : bool := has_value (search r s).

(** [QString::replace(QRegularExpression(r), "")]: every match, left to
    right, is removed.  Each step leaves a shorter subject, so [n] steps
    are enough for a subject of length [n]. *)
Fixpoint remove_matches (n : nat) (r : regex) (s : string) : string :=
  match n with
  | O => s
  | S n' =>
      match s with
      | EmptyString => EmptyString
      | String c s' =>
          match match_at r s with
          | Some rest =>
              if (String.length rest <? String.length s)%nat
              then remove_matches n' r rest
              else String c (remove_matches n' r s')
          | None => String c (remove_matches n' r s')
          end
      end
  end.

Definition replace_empty (r : regex) (s : string) : string :=
  remove_matches (String.length s) r s.

(** [sep] at the start of [s]: the rest of [s] after it. *)
Fixpoint strip_prefix (sep s : string) : option string :=
  match sep, s with
  | EmptyString, _ => Some s
  | String a sep', String b s' =>
      if Ascii.eqb a b then strip_prefix sep' s' else None
  | String _ _, EmptyString => None
  end.

(** [QString::split(sep)] for a non-empty separator, empty parts kept;
    [n] bounds the length of [s]. *)
Fixpoint split_from (n : nat) (sep : string) (part : string) (s : string)
  : list string :=
  match n with
  | O => [srev part]
  | S n' =>
      match s with
      | EmptyString => [srev part]
      | String c s' =>
          match strip_prefix sep s with
          | Some rest => srev part :: split_from n' sep EmptyString rest
          | None => split_from n' sep (String c part) s'
          end
      end
  end.

Definition split (sep s : string) : list string :=
  split_from (String.length s) sep EmptyString s.

(** ** [QString] values that embed numbers

    [QString::number(x)] is kept as the number itself: no property below
    depends on how a number prints, only on where it comes from. *)

Inductive piece : Type :=
| Text (s : string)
| Number (d : double)        (* QString::number(double) *)
| NumberInt (z : Z).         (* QString::number(int) *)

Definition QString := list piece.

Definition qs (s : string) : QString := [Text s].
Definition number (d : double) : QString := [Number d].
Definition number_int (z : Z) : QString := [NumberInt z].

Definition piece_isEmpty (p : piece) : bool :=
  match p with
  | Text s => isEmpty s
  | Number _ => false
  | NumberInt _ => false
  end.

(** [QString::isEmpty()] *)
Definition qisEmpty (q : QString) : bool := forallb piece_isEmpty q.

(** [QStringList::removeAll({})]: the empty strings are dropped. *)
Definition removeAll_empty (l : list QString) : list QString :=
  filter (fun q => negb (qisEmpty q)) l.

(** [QStringList::join(sep)] *)
Fixpoint join (sep : string) (l : list QString) : QString :=
  match l with
  | [] => []
  | [q] => q
  | q :: l' => q ++ qs sep ++ join sep l'
  end.

Definition DQUOTE : string := String (ascii_of_nat 34) EmptyString.
Definition NL : string := String LF EmptyString.

(** ** Data model (the declarations of the class header) *)

Module Codec.
Record t : Type := mk {
  name : string;
  libraryName : string;
  minBitrateKbps : double
}.
End Codec.

Module Container.
Record t : Type := mk {
  formatName : string;
  supportedCodecs : list string
}.
End Container.

(** The numeric fields of [Metadata] are [double], as the class header
    declares them. *)
Module Metadata.
Record t : Type := mk {
  width : double;
  height : double;
  sizeKbps : double;
  audioBitrateKbps : double;
  durationSeconds : double;
  aspectRatioX : double;
  aspectRatioY : double;
  frameRate : double;
  videoCodec : string;
  audioCodec : string;
  container : string
}.

Record Error : Type := mkError {
  summary : QString;
  details : QString
}.
End Metadata.

Module QPoint.
Record t : Type := mk { x : Z; y : Z }.
End QPoint.

Module Options.
Record t : Type := mk {
  inputPath : string;
  outputPath : string;
  videoCodec : option Codec.t;
  audioCodec : option Codec.t;
  container : option Container.t;
  sizeKbps : option double;
  audioQualityPercent : option double;
  outputWidth : option Z;
  outputHeight : option Z;
  aspectRatio : option QPoint.t;
  fps : option Z;
  speed : option double;
  customArguments : option string;
  inputMetadata : option Metadata.t;
  minVideoBitrateKbps : double;
  minAudioBitrateKbps : double;
  maxAudioBitrateKbps : double;
  overshootCorrectionPercent : double
}.
End Options.

Module ComputedOptions.
Record t : Type := mk {
  videoBitrateKbps : option double;
  audioBitrateKbps : option double
}.

(** [ComputedOptions computed;] *)
Definition empty : t := mk None None.
End ComputedOptions.

(** [Message] of the notifier (severity, title, message, details). *)
Module Message.
Inductive Severity : Type := Info | Warning | Error | Critical.

Record t : Type := mk {
  severity : Severity;
  title : QString;
  message : QString;
  details : QString
}.
End Message.

(** [QProcess::ProcessError] *)
Inductive ProcessError : Type :=
| FailedToStart | Crashed | Timedout | WriteError | ReadError | UnknownError.

Definition ProcessError_toString (e : ProcessError) : string :=
  match e with
  | FailedToStart => "FailedToStart"
  | Crashed => "Crashed"
  | Timedout => "Timedout"
  | WriteError => "WriteError"
  | ReadError => "ReadError"
  | UnknownError => "UnknownError"
  end.

(** ** Signals *)

Inductive Notification : Type :=
| encodingStarted (videoBitrateKbps audioBitrateKbps : double)
| encodingProgressUpdate (progressPercent : Z)
| encodingSucceeded (options : Options.t) (computed : ComputedOptions.t)
                    (media : string)
| encodingFailed (error : QString) (errorDetails : QString)
| metadataComputed.

Definition is_succeeded (n : Notification) : bool :=
  match n with encodingSucceeded _ _ _ => true | _ => false end.

Definition is_failed (n : Notification) : bool :=
  match n with encodingFailed _ _ => true | _ => false end.

(** ** The world outside the encoder

    What the external tools and the file system answer.  [fromJson] is
    [Metadata::Builder::fromJson], whose source is not part of the encoder. *)

Record World : Type := mkWorld {
  IS_WINDOWS : bool;
  (* ffprobe: the bytes printed for a command *)
  ffprobe_readAll : QString -> string;
  fromJson : string -> Metadata.t + Metadata.Error;
  (* "ffmpeg -hide_banner -h muxer=...": waitForFinished(10000), stdout, stderr *)
  muxer_help : QString -> bool * string * string;
  (* QFile(path).open(ReadOnly): None when it opened, the error string otherwise *)
  open_ReadOnly : string -> option string
}.

(** ** The encoder object *)

Record Encoder : Type := mkEncoder {
  (* QString output: what ffmpeg printed so far *)
  output : string;
  (* *processUpdateConnection: the readyRead handler with its captured
     metadata.durationSeconds, None when disconnected *)
  processUpdateConnection : option double;
  (* *processFinishedConnection: the finished handler with its captures
     (options, computed, outputPath, command), None when disconnected *)
  processFinishedConnection :
    option (Options.t * ComputedOptions.t * string * QString);
  (* the commands ffmpeg was started with (ffmpeg->startCommand) *)
  launched : list QString
}.

Definition new_Encoder : Encoder := mkEncoder "" None None [].

Definition handled : Type := Encoder * list Notification.

(** ** [QTime::fromString] (Qt::TextDate) and the [QTime] getters

    The text [HH:mm:ss], optionally followed by [.] or [,] and a fraction of
    digits; the time is valid when hour <= 23, minute <= 59, second <= 59.
    The getters of an invalid time return -1. *)

Module QTime.
Definition t : Type := option (Z * Z * Z).

Definition digit_value (c : ascii) : Z := Z.of_nat (nat_of_ascii c) - 48.

Definition two_digits (a b : ascii) : option Z :=
  if is_digit a && is_digit b
  then Some (10 * digit_value a + digit_value b) else None.

Fixpoint all_digits (s : string) : bool :=
  match s with
  | EmptyString => true
  | String c s' => is_digit c && all_digits s'
  end.

Definition fraction_ok (s : string) : bool :=
  match s with
  | EmptyString => true
  | String c f =>
      (chr_is "." c || chr_is "," c) && negb (isEmpty f) && all_digits f
  end.

Definition fromString (s : string) : t :=
  match s with
  | String h1 (String h2 (String c1 (String m1 (String m2 (String c2
      (String s1 (String s2 rest))))))) =>
      match two_digits h1 h2, two_digits m1 m2, two_digits s1 s2 with
      | Some h, Some m, Some sec =>
          if chr_is ":" c1 && chr_is ":" c2 && fraction_ok rest
             && (h <=? 23) && (m <=? 59) && (sec <=? 59)
          then Some (h, m, sec) else None
      | _, _, _ => None
      end
  | _ => None
  end.

Definition hour (q : t) : Z :=
  match q with Some (h, _, _) => h | None => -1 end.
Definition minute (q : t) : Z :=
  match q with Some (_, m, _) => m | None => -1 end.
Definition second (q : t) : Z :=
  match q with Some (_, _, s) => s | None => -1 end.
End QTime.

(** ** The bitrate planner *)

(** [MediaEncoder::computeAudioBitrate]: the new [computed] and the returned
    flag. *)
Definition computeAudioBitrate (options : Options.t)
  (computed : ComputedOptions.t) : bool * ComputedOptions.t :=
  let audioBitrateKbps :=
    qMax (Options.minAudioBitrateKbps options)
         (value_or (Options.audioQualityPercent options) 1
          * Options.maxAudioBitrateKbps options)%float in
  (true,
   ComputedOptions.mk (ComputedOptions.videoBitrateKbps computed)
                      (Some audioBitrateKbps)).

(** [MediaEncoder::computePixelRatio].  The branch taken when an output
    width is set reads the output height, and the other branch reads the
    output width. *)
Definition computePixelRatio (options : Options.t) (metadata : Metadata.t)
  : outcome double :=
  let pixelRatio : double := 1%float in
  inputPixelCount <-
    double_to_long "inputPixelCount"
      (Metadata.width metadata * Metadata.height metadata)%float ;;
  dims <-
    (if has_value (Options.outputWidth options) then
       outputHeight <- deref "options.outputHeight" (Options.outputHeight options) ;;
       outputWidth <-
         double_to_int "outputWidth"
           (to_double outputHeight * Metadata.aspectRatioX metadata
            / Metadata.aspectRatioY metadata)%float ;;
       Done (outputWidth, outputHeight)
     else
       outputWidth <- deref "options.outputWidth" (Options.outputWidth options) ;;
       outputHeight <-
         double_to_int "outputHeight"
           (to_double outputWidth * Metadata.aspectRatioX metadata
            / Metadata.aspectRatioY metadata)%float ;;
       Done (outputWidth, outputHeight)) ;;
  product <- int_result "outputWidth * outputHeight" (fst dims * snd dims) ;;
  let outputPixelCount : double := to_double product in
  if PrimFloat.ltb 0 outputPixelCount
     && PrimFloat.ltb outputPixelCount (to_double inputPixelCount)
  then Done (outputPixelCount / to_double inputPixelCount)%float
  else Done pixelRatio.

(** [MediaEncoder::ComputeVideoBitrate] *)
Definition ComputeVideoBitrate (options : Options.t)
  (computed : ComputedOptions.t) (metadata : Metadata.t)
  : outcome ComputedOptions.t :=
  let audioBitrateKbps : double :=
    value_or (ComputedOptions.audioBitrateKbps computed) 0%float in
  pixelRatio <- computePixelRatio options metadata ;;
  sizeKbps <- deref "options.sizeKbps" (Options.sizeKbps options) ;;
  let bitrateKbps : double :=
    (sizeKbps / Metadata.durationSeconds metadata
     * (1.0 - Options.overshootCorrectionPercent options))%float in
  Done (ComputedOptions.mk
          (Some (qMax (Options.minVideoBitrateKbps options)
                      (pixelRatio * (bitrateKbps - audioBitrateKbps))%float))
          (ComputedOptions.audioBitrateKbps computed)).

(** ** Validation *)

(** The character class [[^ -/a-z0-9]] of the custom-arguments check: a
    character that is not in the range from space to slash, not a lower-case
    letter and not a digit. *)
Definition invalid_custom_char (c : ascii) : bool :=
  negb (chr_in " " "/" c || chr_in "a" "z" c || chr_in "0" "9" c).

Definition custom_regex : regex := Chr invalid_custom_char.

Definition tr (s : string) : QString := qs s.

(** [MediaEncoder::validateOptions]: the returned flag and the signal it
    emits.  Every failed check overwrites [error]; the message of the speed
    check prints [*fps]. *)
Definition validateOptions (options : Options.t)
  : outcome (bool * list Notification) :=
  let error : QString := [] in
  let error :=
    if negb (has_value (Options.videoCodec options))
       && negb (has_value (Options.audioCodec options))
    then tr "Neither a video nor an audio codec was selected." else error in
  let error :=
    if negb (has_value (Options.videoCodec options))
       && negb (has_value (Options.container options))
    then tr "A container was selected but audio-only encoding was specified."
    else error in
  let error :=
    match Options.outputWidth options with
    | Some w => if w <? 0
                then tr "Output width must be greater than 0, but was "
                     ++ number_int w
                else error
    | None => error
    end in
  let error :=
    match Options.outputHeight options with
    | Some h => if h <? 0
                then tr "Output height must be greater than 0, but was "
                     ++ number_int h
                else error
    | None => error
    end in
  let aspect := Options.aspectRatio options in
  let error :=
    match aspect with
    | Some a => if QPoint.x a <=? 0
                then tr "Invalid horizontal aspect " ++ number_int (QPoint.x a)
                else error
    | None => error
    end in
  let error :=
    match aspect with
    | Some a => if QPoint.y a <=? 0
                then tr "Invalid horizontal aspect " ++ number_int (QPoint.x a)
                else error
    | None => error
    end in
  let fps := Options.fps options in
  let error :=
    match fps with
    | Some f => if f <? 0
                then qs "Value for frames per seconds '" ++ number_int f
                     ++ qs "' is out of range."
                else error
    | None => error
    end in
  let speed := Options.speed options in
  error <-
    match speed with
    | Some sp => if PrimFloat.ltb sp 0
                 then f <- deref "fps" fps ;;
                      Done (qs "Value for speed '" ++ number_int f
                            ++ qs "' is out of range.")
                 else Done error
    | None => Done error
    end ;;
  let error :=
    match Options.customArguments options with
    | Some args => if hasMatch custom_regex args
                   then tr "Custom parameters contain invalid characters."
                   else error
    | None => error
    end in
  if negb (qisEmpty error)
  then Done (false, [encodingFailed error (tr "rip bozo")])
  else Done (true, []).

(** ** The external queries *)

(** [MediaEncoder::getMetadata]: the probe's answer and the signal emitted
    on the way. *)
Definition getMetadata (w : World) (path : string)
  : (Metadata.t + Metadata.Error) * list Notification :=
  let command :=
    qs "ffprobe" ++ qs (if IS_WINDOWS w then ".exe" else "")
    ++ qs " -v error -print_format json -show_format -show_streams "
    ++ qs DQUOTE ++ qs path ++ qs DQUOTE in
  let data := ffprobe_readAll w command in
  (fromJson w data, [metadataComputed]).

(** [Common extensions: (.+(?=\.))] *)
Definition extensions_prefix : string := "Common extensions: ".

Definition extensions_regex : regex :=
  Seq (Lit extensions_prefix)
      (Seq (Plus (Chr is_dot)) (Ahead (Chr (chr_is ".")))).

Definition extension_failure (text details : QString) : Message.t :=
  Message.mk Message.Critical
    (tr "Failed to query file extension for container") text details.

(** [MediaEncoder::extensionForContainer] *)
Definition extensionForContainer (w : World) (container : Container.t)
  : string + Message.t :=
  let command :=
    qs "ffmpeg -hide_banner -h muxer=" ++ qs (Container.formatName container) in
  let '(result, stdout, stderr) := muxer_help w command in
  if negb result then
    inr (extension_failure
           (tr "FFmpeg did not respond in time to query the file extension for container "
            ++ qs (Container.formatName container) ++ qs ".")
           (qs stderr))
  else
    match search extensions_regex stdout with
    | None =>
        inr (extension_failure
               (tr "FFmpeg did not return a file extension for container "
                ++ qs (Container.formatName container) ++ qs ".")
               (qs stdout))
    | Some (_, matched, _) =>
        let captured := drop (String.length extensions_prefix) matched in
        match split "," captured with
        | [] =>
            inr (extension_failure
                   (tr "FFmpeg did not return a file extension for container "
                    ++ qs (Container.formatName container) ++ qs ".")
                   (qs stdout))
        | first :: _ => inl (trimmed first)
        end
    end.

(** ** Starting the process *)

(** [MediaEncoder::StartCompression].  [encodingStarted] is emitted first;
    the command is then built, the extension queried, both handlers
    connected and ffmpeg started. *)
Definition StartCompression (w : World) (options : Options.t)
  (computed : ComputedOptions.t) (metadata : Metadata.t) (e : Encoder)
  : outcome handled :=
  let started :=
    encodingStarted
      (value_or (ComputedOptions.videoBitrateKbps computed) 0%float)
      (value_or (ComputedOptions.audioBitrateKbps computed) 0%float) in
  let videoCodecParam :=
    match Options.videoCodec options with
    | Some c => qs "-c:v " ++ qs (Codec.libraryName c)
    | None => qs "-vn"
    end in
  let audioCodecParam :=
    match Options.audioCodec options with
    | Some c => qs "-c:a " ++ qs (Codec.libraryName c)
    | None => qs "-an"
    end in
  videoBitrateParam <-
    (if has_value (Options.sizeKbps options) then
       v <- deref "computed.videoBitrateKbps"
              (ComputedOptions.videoBitrateKbps computed) ;;
       Done (qs "-b:v " ++ number v ++ qs "k")
     else Done (qs "")) ;;
  let audioBitrateParam :=
    match ComputedOptions.audioBitrateKbps computed with
    | Some a => qs "-b:a " ++ number a ++ qs "k"
    | None => qs ""
    end in
  container <- deref "options.container" (Options.container options) ;;
  let formatParam := qs "-f " ++ qs (Container.formatName container) in
  (* video filters *)
  fps0 <- deref "options.fps" (Options.fps options) ;;
  let fps : double := to_double fps0 in
  let scaleFilter :=
    match Options.outputWidth options, Options.outputHeight options with
    | Some ow, Some oh => qs "scale=" ++ number_int ow ++ qs ":" ++ number_int oh
    | Some ow, None => qs "scale=" ++ number_int ow ++ qs ":-2"
    | None, Some oh => qs "scale=-1:" ++ number_int oh
    | None, None => qs ""
    end in
  let aspectRatioFilter :=
    match Options.outputWidth options, Options.outputHeight options with
    | Some _, Some _ => qs "setsar=1/1"
    | _, _ => qs ""
    end in
  let aspectRatioFilter :=
    match Options.aspectRatio options with
    | Some a => qs "setsar=" ++ number_int (QPoint.y a) ++ qs "/"
                ++ number_int (QPoint.x a)
    | None => aspectRatioFilter
    end in
  let speedFilter :=
    match Options.speed options with
    | Some sp => qs "setpts=" ++ number (1.0 / sp)%float ++ qs "*PTS"
    | None => qs ""
    end in
  let fps : double :=
    match Options.speed options with
    | Some sp => (fps * sp)%float
    | None => fps
    end in
  let fpsFilter :=
    if has_value (Options.fps options) then qs "fps=" ++ number fps else qs "" in
  let videoFilters :=
    removeAll_empty [scaleFilter; aspectRatioFilter; speedFilter; fpsFilter] in
  let videoFiltersParam :=
    if (0 <? Z.of_nat (List.length videoFilters))
    then qs "-filter:v " ++ join "," videoFilters else qs "" in
  (* audio filters *)
  let audioSpeedFilter :=
    match Options.speed options with
    | Some sp => qs "atempo=" ++ number sp
    | None => qs ""
    end in
  let audioFilters := removeAll_empty [audioSpeedFilter] in
  let audioFiltersParam :=
    if (0 <? Z.of_nat (List.length audioFilters))
    then qs "-filter:a " ++ join "," audioFilters else qs "" in
  match extensionForContainer w container with
  | inr msg => Done (e, [started; encodingFailed (Message.message msg) (qs "")])
  | inl fileExtension =>
      let outputPath := (Options.outputPath options ++ "." ++ fileExtension)%string in
      customArguments <-
        deref "options.customArguments" (Options.customArguments options) ;;
      let command :=
        qs "ffmpeg" ++ qs (if IS_WINDOWS w then ".exe" else "")
        ++ qs " -i " ++ qs DQUOTE ++ qs (Options.inputPath options) ++ qs DQUOTE
        ++ qs " " ++ videoCodecParam ++ qs " " ++ audioCodecParam
        ++ qs " " ++ videoBitrateParam ++ qs " " ++ audioBitrateParam
        ++ qs " " ++ videoFiltersParam ++ qs " " ++ audioFiltersParam
        ++ qs " " ++ qs customArguments ++ qs " " ++ formatParam
        ++ qs " " ++ qs DQUOTE ++ qs outputPath ++ qs DQUOTE ++ qs " -y" in
      Done (mkEncoder (output e)
                      (Some (Metadata.durationSeconds metadata))
                      (Some (options, computed, outputPath, command))
                      (launched e ++ [command]),
            [started])
  end.

(** ** Following the process *)

(** [time=([0-9][0-9]:[0-9][0-9]:[0-9][0-9].[0-9][0-9])]; the [.] before
    the fraction is the any-character dot. *)
Definition time_prefix : string := "time=".

Definition time_regex : regex :=
  Seq (Lit time_prefix)
   (Seq (Chr is_digit) (Seq (Chr is_digit) (Seq (Chr (chr_is ":"))
   (Seq (Chr is_digit) (Seq (Chr is_digit) (Seq (Chr (chr_is ":"))
   (Seq (Chr is_digit) (Seq (Chr is_digit) (Seq (Chr is_dot)
   (Seq (Chr is_digit) (Chr is_digit))))))))))).

(** [match.captured(1)] of [time_regex] on a chunk. *)
Definition time_captured (line : string) : option string :=
  match search time_regex line with
  | Some (_, matched, _) => Some (drop (String.length time_prefix) matched)
  | None => None
  end.

(** [int currentDuration] of [UpdateProgress] *)
Definition currentDuration (timestamp : QTime.t) : Z :=
  QTime.second timestamp + QTime.minute timestamp * 60
  + QTime.hour timestamp * 3600.

(** [output += line] *)
Definition appended (e : Encoder) (line : string) : Encoder :=
  mkEncoder (output e ++ line)%string (processUpdateConnection e)
            (processFinishedConnection e) (launched e).

(** [MediaEncoder::UpdateProgress]; [line] is what [ffmpeg->readAll()]
    returns. *)
Definition UpdateProgress (mediaDuration : double) (line : string)
  (e : Encoder) : outcome handled :=
  let e' := appended e line in
  match time_captured line with
  | None => Done (e', [])
  | Some captured =>
      let timestamp := QTime.fromString captured in
      scaled <- int_result "currentDuration * 100"
                  (currentDuration timestamp * 100) ;;
      progressPercent <-
        double_to_int "progressPercent" (to_double scaled / mediaDuration)%float ;;
      Done (e', [encodingProgressUpdate progressPercent])
  end.

(** The pattern that [parseOutput] deletes.  Its group 1 is the whole
    pattern, with five alternatives:
    - [\[.*\]]: a bracketed tag, up to the last closing bracket of the line;
    - [Conversion failed!];
    - [v\d\.\d.*]: a version banner, to the end of the line;
    - a space followed by one or more [\s];
    - a dash, a space, one or more [\s], and the pattern again ([(?1)]). *)
Definition noise_regex : regex :=
  Alt (Seq (Chr (chr_is "[")) (Seq (Star (Chr is_dot)) (Chr (chr_is "]"))))
  (Alt (Lit "Conversion failed!")
  (Alt (Seq (Chr (chr_is "v")) (Seq (Chr is_digit) (Seq (Chr (chr_is "."))
          (Seq (Chr is_digit) (Star (Chr is_dot))))))
  (Alt (Seq (Chr (chr_is " ")) (Plus (Chr is_space)))
       (Seq (Chr (chr_is "-")) (Seq (Chr (chr_is " "))
          (Seq (Plus (Chr is_space)) Recurse)))))).

(** [MediaEncoder::parseOutput] on the buffer [output]. *)
Definition parseOutput (output : string) : string :=
  let parts := split "Press [q] to stop, [?] for help" output in
  let parts :=
    if (Z.of_nat (List.length parts) =? 1)
    then split "[0][0][0][0]" output else parts in
  trimmed (replace_empty noise_regex (List.last parts EmptyString)).

Definition disconnected (e : Encoder) (output : string) : Encoder :=
  mkEncoder output None None (launched e).

(** [MediaEncoder::EndCompression] *)
Definition EndCompression (w : World) (options : Options.t)
  (computed : ComputedOptions.t) (outputPath : string) (command : QString)
  (exitCode : Z) (e : Encoder) : outcome handled :=
  if negb (exitCode =? 0) then
    Done (disconnected e "",
          [encodingFailed (qs (parseOutput (output e)))
                          (command ++ qs (NL ++ NL)%string ++ qs (output e))])
  else
    match open_ReadOnly w outputPath with
    | Some errorString =>
        Done (disconnected e "",
              [encodingFailed (qs "Could not open the compressed media.")
                              (qs errorString)])
    | None =>
        Done (disconnected e "", [encodingSucceeded options computed outputPath])
    end.

(** The handler the constructor connects to [QProcess::errorOccurred]; it
    stays connected for the life of the encoder. *)
Definition onErrorOccurred (error : ProcessError) (e : Encoder) : outcome handled :=
  Done (e, [encodingFailed (tr "Process " ++ qs (ProcessError_toString error))
                           (qs "")]).

(** ** The entry point *)

(** Lines 57-66 of [Encode]: the audio bitrate when an audio codec is
    selected, then the video bitrate when a video codec and a target size
    are.  [None] when [computeAudioBitrate] returns false. *)
Definition Encode_plan (options : Options.t) (metadata : Metadata.t)
  : outcome (option ComputedOptions.t) :=
  let computed := ComputedOptions.empty in
  let '(ok, computed) :=
    if has_value (Options.audioCodec options)
    then computeAudioBitrate options computed
    else (true, computed) in
  if negb ok then Done None
  else if has_value (Options.videoCodec options)
          && has_value (Options.sizeKbps options)
  then computed' <- ComputeVideoBitrate options computed metadata ;;
       Done (Some computed')
  else Done (Some computed).

(** [MediaEncoder::Encode] *)
Definition Encode (w : World) (options : Options.t) (e : Encoder)
  : outcome handled :=
  v <- validateOptions options ;;
  let '(valid, log0) := v in
  if negb valid then Done (e, log0)
  else
    let '(result, log1) :=
      match Options.inputMetadata options with
      | None => getMetadata w (Options.inputPath options)
      | Some m => (inl m, [])
      end in
    match result with
    | inr error =>
        Done (e, log0 ++ log1
                 ++ [encodingFailed (Metadata.summary error)
                                    (Metadata.details error)])
    | inl metadata =>
        plan <- Encode_plan options metadata ;;
        match plan with
        | None => Done (e, log0 ++ log1)
        | Some computed =>
            r <- StartCompression w options computed metadata e ;;
            Done (fst r, log0 ++ log1 ++ snd r)
        end
    end.

(** ** The events of the ffmpeg process *)

Inductive ProcessEvent : Type :=
| readyRead (data : string)
| finished (exitCode : Z)
| errorOccurred (error : ProcessError).

(** One event, given to the handlers connected at that moment. *)
Definition deliver (w : World) (ev : ProcessEvent) (e : Encoder)
  : outcome handled :=
  match ev with
  | readyRead data =>
      match processUpdateConnection e with
      | Some mediaDuration => UpdateProgress mediaDuration data e
      | None => Done (e, [])
      end
  | finished exitCode =>
      match processFinishedConnection e with
      | Some (options, computed, outputPath, command) =>
          EndCompression w options computed outputPath command exitCode e
      | None => Done (e, [])
      end
  | errorOccurred error => onErrorOccurred error e
  end.

Fixpoint deliver_all (w : World) (evs : list ProcessEvent) (e : Encoder)
  : outcome handled :=
  match evs with
  | [] => Done (e, [])
  | ev :: evs' =>
      r <- deliver w ev e ;;
      r' <- deliver_all w evs' (fst r) ;;
      Done (fst r', snd r ++ snd r')
  end.

(** One compression request on a fresh encoder: [Encode], then the events
    of the process it started, if it started one. *)
Definition request (w : World) (options : Options.t)
  (evs : list ProcessEvent) : outcome handled :=
  r <- Encode w options new_Encoder ;;
  match launched (fst r) with
  | [] => Done r
  | _ :: _ =>
      r' <- deliver_all w evs (fst r) ;;
      Done (fst r', snd r ++ snd r')
  end.

(** * Vocabulary of the statements *)

(** ** Sample requests *)

Definition libx264 : Codec.t := Codec.mk "H.264" "libx264" 0%float.
Definition libopus : Codec.t := Codec.mk "OPUS" "libopus" 0%float.
Definition mp4 : Container.t := Container.mk "mp4" ["H.264"; "AAC"; "OPUS"].

(** A 1920x1080, 16:9 input of 120 seconds. *)
Definition hd_input : Metadata.t :=
  Metadata.mk 1920%float 1080%float 60000%float 128%float 120%float
              16%float 9%float 30%float "h264" "aac" "mov".

(** The end-to-end request of the specification: 8000 kb for 120 s, audio
    quality 0.5, audio between 16 and 256, video floor 64, overshoot 0.02;
    the output dimensions, frame rate and custom arguments as given. *)
Definition size_request (outputWidth outputHeight fps : option Z)
  (customArguments : option string) : Options.t :=
  Options.mk "in.mov" "out" (Some libx264) (Some libopus) (Some mp4)
             (Some 8000%float) (Some 0.5%float) outputWidth outputHeight None
             fps None customArguments (Some hd_input)
             64%float 16%float 256%float 0.02%float.

(** The same request, complete but for its custom arguments. *)
Definition with_arguments (customArguments : string) : Options.t :=
  size_request (Some 1920) (Some 1080) (Some 30) (Some customArguments).

Definition without_fps : Options.t :=
  size_request (Some 1920) (Some 1080) None (Some "").

Definition without_arguments : Options.t :=
  size_request (Some 1920) (Some 1080) (Some 30) None.

Definition without_container : Options.t :=
  Options.mk "in.mov" "out" (Some libx264) (Some libopus) None
             None (Some 0.5%float) None None None
             (Some 30) None (Some "") (Some hd_input)
             64%float 16%float 256%float 0.02%float.

(** An audio-only request that names a container. *)
Definition audio_only_with_container : Options.t :=
  Options.mk "in.mov" "out" None (Some libopus) (Some mp4)
             None (Some 0.5%float) None None None
             None None None (Some hd_input)
             64%float 16%float 256%float 0.02%float.

(** An audio-only request with a target size. *)
Definition audio_only_with_size : Options.t :=
  Options.mk "in.mov" "out" None (Some libopus) (Some mp4)
             (Some 8000%float) (Some 0.5%float) None None None
             (Some 30) None (Some "") (Some hd_input)
             64%float 16%float 256%float 0.02%float.

(** An answer of the outside world: ffmpeg lists the extensions of the
    muxer, and the output file opens ([None]) or does not. *)
Definition muxer_answer : string :=
  "Muxer mp4 [MP4 (MPEG-4 Part 14)]:" ++ NL
  ++ "    Common extensions: mp4,m4a." ++ NL
  ++ "    Mime type: video/mp4." ++ NL.

Definition world (opens : option string) : World :=
  mkWorld false (fun _ => "") (fun _ => inl hd_input)
          (fun _ => (true, muxer_answer, "")) (fun _ => opens).

(** A progress line of ffmpeg, two minutes into the encode. *)
Definition sample_chunk : string :=
  "frame= 3600 fps= 30 q=28.0 size=    1024kB time=00:02:00.00 bitrate=  69.9kbits/s speed=1x".

(** ** The planner's formula, in the specification's words

    max(minAudioBitrateKbps, audioQualityPercent * maxAudioBitrateKbps), the
    quality being 1 when unset. *)
Definition planned_audio (options : Options.t) : double :=
  qMax (Options.minAudioBitrateKbps options)
       (match Options.audioQualityPercent options with
        | Some quality => quality
        | None => 1
        end * Options.maxAudioBitrateKbps options)%float.

(** ** Notification traces *)

Inductive Kind : Type :=
| Started | Progress | Succeeded | Failed | MetadataComputed.

Definition kind (n : Notification) : Kind :=
  match n with
  | encodingStarted _ _ => Started
  | encodingProgressUpdate _ => Progress
  | encodingSucceeded _ _ _ => Succeeded
  | encodingFailed _ _ => Failed
  | metadataComputed => MetadataComputed
  end.

(** The notification kinds of a request, in order; [None] when the run is
    undefined. *)
Definition trace (w : World) (options : Options.t) (evs : list ProcessEvent)
  : option (list Kind) :=
  match request w options evs with
  | Done r => Some (map kind (snd r))
  | Undefined _ => None
  end.





(** ** Matching *)

(** [suffix s' s]: [s'] is what is left of [s] after some characters. *)
Inductive suffix : string -> string -> Prop :=
| suffix_refl (s : string) : suffix s s
| suffix_skip (c : ascii) (s' s : string) : suffix s' s -> suffix s' (String c s).

(** A matcher passes suffixes of its subject to its continuation. *)
Definition passes
  (matcher : string -> (string -> option string) -> option string) : Prop :=
  forall s k x, matcher s k = Some x -> exists s', suffix s' s /\ k s' = Some x.






Fixpoint contains_char (p : ascii -> bool) (s : string) : bool :=
  match s with
  | EmptyString => false
  | String c s' => p c || contains_char p s'
  end.


(** [r] can match without consuming a character. *)
Fixpoint nullable (r : regex) : bool :=
  match r with
  | Eps => true
  | Chr _ => false
  | Seq r1 r2 => nullable r1 && nullable r2
  | Alt r1 r2 => nullable r1 || nullable r2
  | Star _ => true
  | Ahead _ => true
  | Recurse => true
  end.

(** Every [(?1)] of [r] comes after a part that consumes a character. *)
Fixpoint guarded (r : regex) : bool :=
  match r with
  | Eps => true
  | Chr _ => true
  | Seq r1 r2 => guarded r1 && (negb (nullable r1) || guarded r2)
  | Alt r1 r2 => guarded r1 && guarded r2
  | Star r1 => guarded r1
  | Ahead r1 => guarded r1
  | Recurse => false
  end.

Definition shorter (s' s : string) : Prop :=
  suffix s' s /\ (String.length s' < String.length s)%nat.

(** Two matchers agree on the subjects in [P], for continuations that
    agree on the suffixes of the subject. *)
Definition agree_on (P : string -> Prop)
  (m1 m2 : string -> (string -> option string) -> option string) : Prop :=
  forall s k1 k2, P s ->
    (forall s', suffix s' s -> k1 s' = k2 s') -> m1 s k1 = m2 s k2.

(** One step of a run: a defined result, or nothing to prove. *)
Ltac run_bind :=
  match goal with
  | |- obind ?m _ = _ -> _ => destruct m; simpl; [|discriminate]
  end.

(** ** Validation, rule by rule *)

(** What [validateOptions] checks, rule by rule. *)
Definition acceptable (options : Options.t) : bool :=
  (has_value (Options.videoCodec options) || has_value (Options.audioCodec options))
  && (has_value (Options.videoCodec options) || has_value (Options.container options))
  && match Options.outputWidth options with Some w => 0 <=? w | None => true end
  && match Options.outputHeight options with Some h => 0 <=? h | None => true end
  && match Options.aspectRatio options with
     | Some a => (0 <? QPoint.x a) && (0 <? QPoint.y a)
     | None => true
     end
  && match Options.fps options with Some f => 0 <=? f | None => true end
  && match Options.speed options with
     | Some sp => negb (PrimFloat.ltb sp 0)
     | None => true
     end
  && match Options.customArguments options with
     | Some args => negb (contains_char invalid_custom_char args)
     | None => true
     end.

(** The speed is negative and there is no frame rate to print in the
    message. *)
Definition speed_message_undefined (options : Options.t) : bool :=
  match Options.speed options, Options.fps options with
  | Some sp, None => PrimFloat.ltb sp 0
  | _, _ => false
  end.

(* The last failed rule decides the message. *)
Ltac rule_fired :=
  intros; eexists; split; [|reflexivity]; reflexivity.

(** ** More requests, worlds and encoders *)

(** [options] with another requested output width. *)
Definition with_outputWidth (options : Options.t) (outputWidth : option Z)
  : Options.t :=
  Options.mk (Options.inputPath options) (Options.outputPath options)
    (Options.videoCodec options) (Options.audioCodec options)
    (Options.container options) (Options.sizeKbps options)
    (Options.audioQualityPercent options) outputWidth
    (Options.outputHeight options) (Options.aspectRatio options)
    (Options.fps options) (Options.speed options)
    (Options.customArguments options) (Options.inputMetadata options)
    (Options.minVideoBitrateKbps options) (Options.minAudioBitrateKbps options)
    (Options.maxAudioBitrateKbps options)
    (Options.overshootCorrectionPercent options).

(** A request with no codec at all. *)
Definition no_codec_request : Options.t :=
  Options.mk "in.mov" "out" None None (Some mp4)
             None None None None None None None None (Some hd_input)
             64%float 16%float 256%float 0.02%float.

(** The world whose probe fails. *)
Definition failing_probe : World :=
  mkWorld false (fun _ => "")
          (fun _ => inr (Metadata.mkError (qs "Could not probe") (qs "no streams")))
          (fun _ => (true, muxer_answer, "")) (fun _ => None).

(** A valid request that leaves the metadata to the probe. *)
Definition unprobed_request : Options.t :=
  Options.mk "in.mov" "out" (Some libx264) (Some libopus) (Some mp4)
             None (Some 0.5%float) None None None
             (Some 30) None (Some "") None
             64%float 16%float 256%float 0.02%float.



(** The metadata [Encode] works with: the one given in the request, or
    else the probe's answer. *)
Definition input_metadata (w : World) (options : Options.t)
  : Metadata.t + Metadata.Error :=
  match Options.inputMetadata options with
  | Some metadata => inl metadata
  | None => fst (getMetadata w (Options.inputPath options))
  end.

(** ** Deleting characters *)

(** [a] is [b] with some characters deleted. *)
Inductive subseq : string -> string -> Prop :=
| subseq_nil : subseq "" ""
| subseq_keep (c : ascii) (a b : string) :
    subseq a b -> subseq (String c a) (String c b)
| subseq_skip (c : ascii) (a b : string) :
    subseq a b -> subseq a (String c b).

(** Every character of [s] is in the class [p]. *)
Fixpoint every (p : ascii -> bool) (s : string) : bool :=
  match s with
  | EmptyString => true
  | String c s' => p c && every p s'
  end.

(** ** The list of extensions *)

(** ffmpeg's answer lists extensions: after [before] comes
    [Common extensions: ], a non-empty text [listed] without a newline,
    and a dot. *)
Definition lists_extensions (stdout before listed after : string) : Prop :=
  stdout = (before ++ extensions_prefix ++ listed ++ "." ++ after)%string
  /\ listed <> ""
  /\ every is_dot listed = true.

(** [first] is [listed] up to its first comma. *)
Definition up_to_comma (listed first : string) : Prop :=
  contains_char (chr_is ",") first = false
  /\ (listed = first \/ exists more, listed = (first ++ "," ++ more)%string).

(** [s] itself when it begins with a dot. *)
Definition starts_with_dot (s : string) : option string :=
  match s with
  | String c _ => if chr_is "." c then Some s else None
  | EmptyString => None
  end.

(** [(?=\.)] at the end of a pattern. *)
Definition ahead_dot
  (recurse : string -> (string -> option string) -> option string)
  (s : string) : option string :=
  go recurse (Ahead (Chr (chr_is "."))) s Some.

(** ** Timestamps as times of day *)





(** ** The text that is parsed *)


(** [options] with other custom arguments. *)
Definition with_customArguments (options : Options.t)
  (customArguments : option string) : Options.t :=
  Options.mk (Options.inputPath options) (Options.outputPath options)
    (Options.videoCodec options) (Options.audioCodec options)
    (Options.container options) (Options.sizeKbps options)
    (Options.audioQualityPercent options) (Options.outputWidth options)
    (Options.outputHeight options) (Options.aspectRatio options)
    (Options.fps options) (Options.speed options)
    customArguments (Options.inputMetadata options)
    (Options.minVideoBitrateKbps options) (Options.minAudioBitrateKbps options)
    (Options.maxAudioBitrateKbps options)
    (Options.overshootCorrectionPercent options).

(** * Properties *)

(** ** [qMax] on binary64

    [qMax a b] is one of its arguments, and for arguments that are numbers
    (not NaN) neither argument is above it. *)

Lemma compare_cont_Eq_antisym (p q : positive) :
  Pos.compare_cont Eq q p = CompOpp (Pos.compare_cont Eq p q).
Proof. exact (Pos.compare_antisym p q). Qed.

Lemma SFcompare_antisym (x y : spec_float) (c : comparison) :
  SFcompare x y = Some c -> SFcompare y x = Some (CompOpp c).
Proof.
  destruct x as [sx|sx| |sx mx ex], y as [sy|sy| |sy my ey]; simpl;
    try discriminate;
    intros H; injection H as <-;
    try (destruct sx; reflexivity); try (destruct sy; reflexivity);
    try (destruct sx, sy; reflexivity).
  rewrite (Z.compare_antisym ex ey).
  change (PosDef.Pos.compare_cont Eq my mx) with (Pos.compare_cont Eq my mx).
  change (PosDef.Pos.compare_cont Eq mx my) with (Pos.compare_cont Eq mx my).
  rewrite (compare_cont_Eq_antisym mx my).
  destruct sx, sy; simpl; try reflexivity;
    destruct (ex ?= ey)%Z; simpl; try reflexivity;
    destruct (Pos.compare_cont Eq mx my); reflexivity.
Qed.

Lemma SFcompare_number (x y : spec_float) :
  SFcompare x x <> None -> SFcompare y y <> None ->
  exists c, SFcompare x y = Some c.
Proof.
  destruct x, y; simpl; intros Hx Hy; try congruence; eexists; reflexivity.
Qed.

Lemma SFcompare_refl (x : spec_float) :
  SFcompare x x <> None -> SFcompare x x = Some Eq.
Proof.
  intros H. destruct (SFcompare x x) as [c|] eqn:E; [|congruence].
  pose proof (SFcompare_antisym _ _ _ E) as E'. rewrite E in E'.
  destruct c; simpl in E'; congruence.
Qed.

Lemma is_nan_false_compare (a : double) :
  PrimFloat.is_nan a = false -> SFcompare (Prim2SF a) (Prim2SF a) <> None.
Proof.
  unfold PrimFloat.is_nan. rewrite FloatAxioms.eqb_spec. unfold SFeqb.
  destruct (SFcompare (Prim2SF a) (Prim2SF a)); [congruence | discriminate].
Qed.

Lemma qMax_choice (a b : double) : qMax a b = a \/ qMax a b = b.
Proof. unfold qMax. destruct (PrimFloat.ltb a b); auto. Qed.

Lemma qMax_upper_bound (a b : double) :
  PrimFloat.is_nan a = false -> PrimFloat.is_nan b = false ->
  PrimFloat.leb a (qMax a b) = true /\ PrimFloat.leb b (qMax a b) = true.
Proof.
  intros Ha Hb.
  apply is_nan_false_compare in Ha. apply is_nan_false_compare in Hb.
  destruct (SFcompare_number _ _ Ha Hb) as [c Hc].
  pose proof (SFcompare_antisym _ _ _ Hc) as Hc'.
  apply SFcompare_refl in Ha. apply SFcompare_refl in Hb.
  unfold qMax. rewrite FloatAxioms.ltb_spec. unfold SFltb. rewrite Hc.
  destruct c; rewrite !FloatAxioms.leb_spec; unfold SFleb; simpl in Hc';
    rewrite ?Hc, ?Hc', ?Ha, ?Hb; split; reflexivity.
Qed.

(** ** The planner *)

Lemma computeAudioBitrate_spec (options : Options.t) (computed : ComputedOptions.t) :
  computeAudioBitrate options computed
  = (true, ComputedOptions.mk (ComputedOptions.videoBitrateKbps computed)
                              (Some (planned_audio options))).
Proof.
  unfold computeAudioBitrate, planned_audio, value_or.
  destruct (Options.audioQualityPercent options); reflexivity.
Qed.

Lemma ComputeVideoBitrate_keeps_audio (options : Options.t)
  (computed computed' : ComputedOptions.t) (metadata : Metadata.t) :
  ComputeVideoBitrate options computed metadata = Done computed' ->
  ComputedOptions.audioBitrateKbps computed'
  = ComputedOptions.audioBitrateKbps computed.
Proof.
  unfold ComputeVideoBitrate.
  destruct (computePixelRatio options metadata); simpl; [|discriminate].
  destruct (Options.sizeKbps options); simpl; [|discriminate].
  intros H. injection H as <-. reflexivity.
Qed.

Lemma Encode_plan_some (options : Options.t) (metadata : Metadata.t)
  (plan : option ComputedOptions.t) :
  Encode_plan options metadata = Done plan -> exists computed, plan = Some computed.
Proof.
  unfold Encode_plan.
  destruct (has_value (Options.audioCodec options)); simpl;
    (destruct (has_value (Options.videoCodec options)
               && has_value (Options.sizeKbps options));
     [ destruct (ComputeVideoBitrate options _ metadata); simpl; [|discriminate]
     | ]);
    intros H; injection H as <-; eexists; reflexivity.
Qed.

(** C3.  [computeAudioBitrate] stores
    max(minAudioBitrateKbps, audioQualityPercent * maxAudioBitrateKbps), an
    unset quality counting as 1.  A request with no video codec is always
    planned, and whenever the planning stage of [Encode] completes, the
    plan holds that audio bitrate when an audio codec is selected and no
    audio bitrate when none is: the audio planner runs exactly for the
    requests with an audio codec. *)
Theorem Encode_plan_audio (options : Options.t) (metadata : Metadata.t) :
  computeAudioBitrate options ComputedOptions.empty
  = (true, ComputedOptions.mk None (Some (planned_audio options)))
  /\ (Options.videoCodec options = None ->
      Encode_plan options metadata
      = Done (Some (ComputedOptions.mk None
                      match Options.audioCodec options with
                      | Some _ => Some (planned_audio options)
                      | None => None
                      end)))
  /\ (forall plan,
        Encode_plan options metadata = Done plan ->
        exists computed,
          plan = Some computed
          /\ ComputedOptions.audioBitrateKbps computed
             = match Options.audioCodec options with
               | Some _ => Some (planned_audio options)
               | None => None
               end).
Proof.
  split; [apply computeAudioBitrate_spec|]. split.
  - intros Hv. unfold Encode_plan. rewrite Hv.
    destruct (Options.audioCodec options); simpl has_value; cbv iota;
      [rewrite computeAudioBitrate_spec|]; reflexivity.
  - intros plan. unfold Encode_plan.
    destruct (Options.audioCodec options) as [codec|]; simpl has_value; cbv iota;
      [rewrite computeAudioBitrate_spec|]; simpl negb; cbv iota;
      (destruct (has_value (Options.videoCodec options)
                 && has_value (Options.sizeKbps options));
       [ destruct (ComputeVideoBitrate options _ metadata) as [c'|] eqn:E;
         simpl; [|discriminate];
         intros H; injection H as <-; exists c'; split; [reflexivity|];
         rewrite (ComputeVideoBitrate_keeps_audio _ _ _ _ E)
       | intros H; injection H as <-; eexists; split; [reflexivity|] ]);
      reflexivity.
Qed.

Lemma Encode_plan_audio_witness :
  let options := size_request (Some 1920) (Some 1080) (Some 30) (Some "") in
  Encode_plan options hd_input
  = Done (Some (ComputedOptions.mk (Some 64%float) (Some 128%float)))
  /\ exists computed,
       Some (ComputedOptions.mk (Some 64%float) (Some 128%float)) = Some computed
       /\ ComputedOptions.audioBitrateKbps computed = Some 128%float.
Proof.
  split.
  - vm_compute. reflexivity.
  - destruct (Encode_plan_audio
                (size_request (Some 1920) (Some 1080) (Some 30) (Some ""))
                hd_input) as [_ [_ H]].
    apply H. vm_compute. reflexivity.
Defined.

(** X3.  Whenever the pixel ratio is defined, the video bitrate is
    max(minVideoBitrateKbps,
        pixelRatio * (sizeKbps / durationSeconds * (1 - overshoot) - audio)),
    the audio bitrate counting as 0 when none was planned, and the audio
    bitrate is left as it was. *)
Theorem ComputeVideoBitrate_formula (options : Options.t)
  (computed : ComputedOptions.t) (metadata : Metadata.t)
  (pixelRatio sizeKbps : double) :
  computePixelRatio options metadata = Done pixelRatio ->
  Options.sizeKbps options = Some sizeKbps ->
  ComputeVideoBitrate options computed metadata =
  Done (ComputedOptions.mk
          (Some (qMax (Options.minVideoBitrateKbps options)
                   (pixelRatio
                    * (sizeKbps / Metadata.durationSeconds metadata
                       * (1 - Options.overshootCorrectionPercent options)
                       - match ComputedOptions.audioBitrateKbps computed with
                         | Some audio => audio
                         | None => 0
                         end))%float))
          (ComputedOptions.audioBitrateKbps computed)).
Proof.
  intros Hratio Hsize. unfold ComputeVideoBitrate.
  rewrite Hratio, Hsize. reflexivity.
Qed.

Lemma ComputeVideoBitrate_formula_witness :
  ComputeVideoBitrate
    (size_request (Some 1920) (Some 1080) (Some 30) (Some ""))
    (ComputedOptions.mk None (Some 128%float)) hd_input
  = Done (ComputedOptions.mk (Some 64%float) (Some 128%float)).
Proof.
  apply (ComputeVideoBitrate_formula
           (size_request (Some 1920) (Some 1080) (Some 30) (Some ""))
           (ComputedOptions.mk None (Some 128%float)) hd_input
           1%float 8000%float);
    vm_compute; reflexivity.
Defined.

(** The pixel ratio is undefined as soon as no output width is requested:
    the branch for that case reads the empty [outputWidth]. *)
Lemma computePixelRatio_without_width (options : Options.t)
  (metadata : Metadata.t) (inputPixelCount : Z) :
  double_to_long "inputPixelCount"
    (Metadata.width metadata * Metadata.height metadata)%float
  = Done inputPixelCount ->
  Options.outputWidth options = None ->
  computePixelRatio options metadata
  = Undefined (EmptyOptional "options.outputWidth").
Proof.
  intros Hin Hw. unfold computePixelRatio. rewrite Hin, Hw. reflexivity.
Qed.

(** With a width but no height, the branch for a set width reads the empty
    [outputHeight]. *)
Lemma computePixelRatio_width_only (options : Options.t)
  (metadata : Metadata.t) (inputPixelCount outputWidth : Z) :
  double_to_long "inputPixelCount"
    (Metadata.width metadata * Metadata.height metadata)%float
  = Done inputPixelCount ->
  Options.outputWidth options = Some outputWidth ->
  Options.outputHeight options = None ->
  computePixelRatio options metadata
  = Undefined (EmptyOptional "options.outputHeight").
Proof.
  intros Hin Hw Hh. unfold computePixelRatio. rewrite Hin, Hw, Hh. reflexivity.
Qed.

(** With both dimensions set, the height is kept, the width is derived
    from it through the input aspect ratio, and the ratio is
    outputPixels / inputPixels exactly for a positive output pixel count
    below the input's; it is 1 otherwise. *)
Lemma computePixelRatio_both (options : Options.t) (metadata : Metadata.t)
  (inputPixelCount requestedWidth outputHeight outputWidth product : Z) :
  double_to_long "inputPixelCount"
    (Metadata.width metadata * Metadata.height metadata)%float
  = Done inputPixelCount ->
  Options.outputWidth options = Some requestedWidth ->
  Options.outputHeight options = Some outputHeight ->
  double_to_int "outputWidth"
    (to_double outputHeight * Metadata.aspectRatioX metadata
     / Metadata.aspectRatioY metadata)%float
  = Done outputWidth ->
  int_result "outputWidth * outputHeight" (outputWidth * outputHeight)
  = Done product ->
  computePixelRatio options metadata
  = Done (if PrimFloat.ltb 0 (to_double product)
             && PrimFloat.ltb (to_double product) (to_double inputPixelCount)
          then (to_double product / to_double inputPixelCount)%float
          else 1%float).
Proof.
  intros Hin Hw Hh Hwidth Hproduct. unfold computePixelRatio.
  rewrite Hin, Hw, Hh. simpl. rewrite Hwidth. simpl. rewrite Hproduct. simpl.
  destruct (_ && _); reflexivity.
Qed.

(** The specification's scenario, once both output dimensions are given
    (here the input's own): audio 128, video at its floor 64. *)
Lemma scenario_with_both_dimensions :
  Encode_plan (size_request (Some 1920) (Some 1080) (Some 30) (Some "")) hd_input
  = Done (Some (ComputedOptions.mk (Some 64%float) (Some 128%float))).
Proof. vm_compute. reflexivity. Qed.

(** C1.  On the code: for the specification's end-to-end request (120 s,
    8000 kb, audio quality 0.5, audio 16..256, overshoot 0.02, no resize)
    validation passes and the audio bitrate is 128, but no video bitrate
    is planned: [ComputeVideoBitrate] calls [computePixelRatio], which
    dereferences the empty [outputWidth], so the run is undefined. *)
Theorem ComputeVideoBitrate_no_resize_undefined :
  let options := size_request None None (Some 30) (Some "") in
  validateOptions options = Done (true, [])
  /\ computeAudioBitrate options ComputedOptions.empty
     = (true, ComputedOptions.mk None (Some 128%float))
  /\ ComputeVideoBitrate options (ComputedOptions.mk None (Some 128%float)) hd_input
     = Undefined (EmptyOptional "options.outputWidth")
  /\ Encode_plan options hd_input
     = Undefined (EmptyOptional "options.outputWidth")
  /\ Encode (world None) options new_Encoder
     = Undefined (EmptyOptional "options.outputWidth").
Proof. vm_compute. repeat split; reflexivity. Qed.

(** C2.  On the code: [computePixelRatio] on the 1920x1080 input.  With no
    output dimension the ratio is not 1 but undefined; with only a width,
    or only a height, the optional that is empty is dereferenced; with
    both 100 and 90 the explicit width is ignored and the ratio is that of
    160x90, not of 100x90. *)
Theorem computePixelRatio_dimension_cases :
  computePixelRatio (size_request None None (Some 30) (Some "")) hd_input
  = Undefined (EmptyOptional "options.outputWidth")
  /\ computePixelRatio (size_request (Some 960) None (Some 30) (Some "")) hd_input
     = Undefined (EmptyOptional "options.outputHeight")
  /\ computePixelRatio (size_request None (Some 540) (Some 30) (Some "")) hd_input
     = Undefined (EmptyOptional "options.outputWidth")
  /\ computePixelRatio (size_request (Some 100) (Some 90) (Some 30) (Some "")) hd_input
     = Done (to_double (160 * 90) / to_double (1920 * 1080))%float
  /\ (to_double (160 * 90) / to_double (1920 * 1080))%float
     <> (to_double (100 * 90) / to_double (1920 * 1080))%float.
Proof.
  vm_compute. repeat split; try reflexivity.
  intros H. discriminate H.
Qed.

(** ** Strings *)

Lemma suffix_trans (a b c : string) : suffix a b -> suffix b c -> suffix a c.
Proof.
  intros Hab Hbc. induction Hbc as [|ch b c Hbc IH]; [assumption|].
  apply suffix_skip. apply IH. assumption.
Qed.

Lemma suffix_length (a b : string) :
  suffix a b -> (String.length a <= String.length b)%nat.
Proof. induction 1; simpl; lia. Qed.

Lemma suffix_append (a b : string) :
  suffix a b -> exists p, b = (p ++ a)%string.
Proof.
  induction 1 as [s|c a b H [p IH]].
  - exists EmptyString. reflexivity.
  - exists (String c p). simpl. congruence.
Qed.

Lemma append_nil_r (s : string) : (s ++ "")%string = s.
Proof. induction s as [|c s IH]; simpl; congruence. Qed.

Lemma append_assoc (a b c : string) :
  ((a ++ b) ++ c)%string = (a ++ (b ++ c))%string.
Proof. induction a as [|x a IH]; simpl; congruence. Qed.

Lemma length_append (a b : string) :
  String.length (a ++ b) = (String.length a + String.length b)%nat.
Proof. induction a as [|x a IH]; simpl; congruence. Qed.

Lemma rev_onto_append (s acc : string) :
  rev_onto s acc = (srev s ++ acc)%string.
Proof.
  unfold srev. revert acc.
  induction s as [|c s IH]; intros acc; simpl; [reflexivity|].
  rewrite (IH (String c acc)), (IH (String c EmptyString)).
  rewrite append_assoc. reflexivity.
Qed.

Lemma srev_cons (c : ascii) (s : string) :
  srev (String c s) = (srev s ++ String c "")%string.
Proof. unfold srev at 1. simpl. apply rev_onto_append. Qed.

Lemma take_append (a b : string) : take (String.length a) (a ++ b) = a.
Proof. induction a as [|x a IH]; simpl; [destruct b; reflexivity|congruence]. Qed.

Lemma drop_append (a b : string) : drop (String.length a) (a ++ b) = b.
Proof. induction a as [|x a IH]; simpl; [reflexivity|assumption]. Qed.

(** ** The matcher hands on suffixes *)

Section MatcherSuffix.
Variable recurse : string -> (string -> option string) -> option string.
Hypothesis recurse_passes : passes recurse.

Lemma go_suffix (r : regex) : passes (go recurse r).
Proof.
  unfold passes.
  induction r as [|p|r1 IH1 r2 IH2|r1 IH1 r2 IH2|r1 IH1|r1 IH1|];
    intros s k x H; simpl in H.
  - exists s. split; [constructor|assumption].
  - destruct s as [|c s']; [discriminate|].
    destruct (p c); [|discriminate].
    exists s'. split; [repeat constructor|assumption].
  - apply IH1 in H. destruct H as [s1 [H1 H]].
    apply IH2 in H. destruct H as [s2 [H2 H]].
    exists s2. split; [eapply suffix_trans; eassumption|assumption].
  - destruct (go recurse r1 s k) eqn:E.
    + injection H as <-. apply IH1 in E. assumption.
    + apply IH2 in H. assumption.
  - revert H. generalize (String.length s) at 1. intros n. revert s.
    induction n as [|n IHn]; intros s H.
    + exists s. split; [constructor|assumption].
    + match type of H with
      | match ?g with _ => _ end = _ => destruct g eqn:E
      end.
      * injection H as <-. apply IH1 in E. destruct E as [s1 [H1 E]].
        destruct (String.length s1 <? String.length s)%nat; [|discriminate].
        apply IHn in E. destruct E as [s2 [H2 E]].
        exists s2. split; [eapply suffix_trans; eassumption|assumption].
      * exists s. split; [constructor|assumption].
  - destruct (go recurse r1 s Some); [|discriminate].
    exists s. split; [constructor|assumption].
  - apply recurse_passes in H. assumption.
Qed.
End MatcherSuffix.

Lemma recursion_suffix (depth : nat) (top : regex) : passes (recursion depth top).
Proof.
  induction depth as [|d IH]; intros s k x H; simpl in H.
  - discriminate.
  - apply (go_suffix _ IH top) in H. assumption.
Qed.

Lemma match_at_suffix (r : regex) (s rest : string) :
  match_at r s = Some rest -> suffix rest s.
Proof.
  unfold match_at, rmatch. intros H.
  apply (go_suffix _ (recursion_suffix _ _) r) in H.
  destruct H as [s' [Hs H]]. injection H as <-. assumption.
Qed.

(** ** Leftmost search *)

Lemma search_from_eq (r : regex) (before s : string) :
  search_from r before s
  = match match_at r s with
    | Some rest =>
        Some (srev before, take (String.length s - String.length rest) s, rest)
    | None =>
        match s with
        | EmptyString => None
        | String c s' => search_from r (String c before) s'
        end
    end.
Proof. destruct s; reflexivity. Qed.

Lemma matched_text (s rest : string) :
  suffix rest s ->
  s = (take (String.length s - String.length rest) s ++ rest)%string.
Proof.
  intros Hs. destruct (suffix_append _ _ Hs) as [p ->].
  rewrite length_append.
  replace (String.length p + String.length rest - String.length rest)%nat
    with (String.length p) by lia.
  rewrite take_append. reflexivity.
Qed.

Lemma search_from_sound (r : regex) (s before pre m post : string) :
  search_from r before s = Some (pre, m, post) ->
  (srev before ++ s)%string = (pre ++ m ++ post)%string
  /\ match_at r (m ++ post) = Some post.
Proof.
  revert before. induction s as [|c s IH]; intros before;
    rewrite search_from_eq.
  - destruct (match_at r "") as [rest|] eqn:E; [|discriminate].
    intros H. injection H as <- <- <-.
    apply match_at_suffix in E as Hs. inversion Hs; subst.
    simpl. split; [reflexivity|assumption].
  - destruct (match_at r (String c s)) as [rest|] eqn:E.
    + intros H. apply match_at_suffix in E as Hs.
      pose proof (matched_text _ _ Hs) as Hm.
      injection H as H1 H2 H3. subst pre post.
      assert (H2' : take (String.length (String c s) - String.length rest)
                         (String c s) = m) by exact H2.
      rewrite <- H2', <- Hm. split; [reflexivity|assumption].
    + intros H. apply IH in H. destruct H as [H1 H2].
      rewrite srev_cons, append_assoc in H1. simpl in H1.
      split; assumption.
Qed.

Lemma search_sound (r : regex) (s pre m post : string) :
  search r s = Some (pre, m, post) ->
  s = (pre ++ m ++ post)%string /\ match_at r (m ++ post) = Some post.
Proof. intros H. apply search_from_sound in H. simpl in H. assumption. Qed.

Lemma search_from_none (r : regex) (s before : string) :
  search_from r before s = None ->
  forall pre rest, s = (pre ++ rest)%string -> match_at r rest = None.
Proof.
  revert before. induction s as [|c s IH]; intros before; simpl.
  - destruct (match_at r "") eqn:E; [discriminate|].
    intros _ pre rest H. destruct pre; simpl in H; [subst; assumption|discriminate].
  - destruct (match_at r (String c s)) eqn:E; [discriminate|].
    intros H pre rest Hs. destruct pre as [|x pre]; simpl in Hs.
    + subst. assumption.
    + injection Hs as -> ->. eapply IH; [eassumption|reflexivity].
Qed.

Lemma search_none (r : regex) (s : string) :
  search r s = None ->
  forall pre rest, s = (pre ++ rest)%string -> match_at r rest = None.
Proof. apply search_from_none. Qed.

(** The match that [search] returns is the leftmost one. *)
Lemma search_from_leftmost (r : regex) (s before pre m post : string) :
  search_from r before s = Some (pre, m, post) ->
  exists skipped,
    pre = (srev before ++ skipped)%string
    /\ s = (skipped ++ m ++ post)%string
    /\ forall p q, skipped = (p ++ q)%string -> q <> "" ->
                   match_at r (q ++ m ++ post) = None.
Proof.
  revert before. induction s as [|c s IH]; intros before;
    rewrite search_from_eq.
  - destruct (match_at r "") as [rest|] eqn:E; [|discriminate].
    intros H. apply match_at_suffix in E as Hs. inversion Hs; subst.
    injection H as <- <- <-. exists "". rewrite append_nil_r.
    repeat split. intros p q Hpq Hq. destruct p; simpl in Hpq; congruence.
  - destruct (match_at r (String c s)) as [rest|] eqn:E.
    + intros H. apply match_at_suffix in E as Hs.
      pose proof (matched_text _ _ Hs) as Hm.
      injection H as H1 H2 H3. subst pre post.
      assert (H2' : take (String.length (String c s) - String.length rest)
                         (String c s) = m) by exact H2.
      exists "". rewrite append_nil_r. rewrite <- H2'.
      repeat split; [exact Hm|].
      intros p q Hpq Hq. destruct p; simpl in Hpq; congruence.
    + intros H. apply IH in H. destruct H as [skipped [Hpre [Hs Hleft]]].
      exists (String c skipped). repeat split.
      * rewrite Hpre, srev_cons, append_assoc. reflexivity.
      * simpl. congruence.
      * intros p q Hpq Hq. destruct p as [|x p]; simpl in Hpq.
        -- subst q. simpl. rewrite <- Hs. assumption.
        -- injection Hpq as -> Hpq. eapply Hleft; eassumption.
Qed.

Lemma search_leftmost (r : regex) (s pre m post : string) :
  search r s = Some (pre, m, post) ->
  forall p q, pre = (p ++ q)%string -> q <> "" ->
              match_at r (q ++ m ++ post) = None.
Proof.
  intros H. apply search_from_leftmost in H.
  destruct H as [skipped [Hpre [_ Hleft]]]. simpl in Hpre. subst skipped.
  assumption.
Qed.

Lemma append_overlap (b x before y : string) :
  (b ++ x)%string = (before ++ y)%string ->
  (String.length b < String.length before)%nat ->
  exists q, before = (b ++ q)%string /\ q <> "" /\ x = (q ++ y)%string.
Proof.
  revert before. induction b as [|c b IH]; intros before H Hlt.
  - simpl in H. exists before. repeat split; [|assumption].
    destruct before; [simpl in Hlt; lia|discriminate].
  - destruct before as [|d before]; [simpl in Hlt; lia|].
    simpl in H. injection H as -> H. simpl in Hlt.
    destruct (IH before H) as [q [-> [Hq Hx]]]; [lia|].
    exists q. repeat split; assumption.
Qed.

(** ** Patterns that are a fixed sequence of character classes *)








(** ** Validation *)

(** C6.  On the code: a request with a container and no video codec
    passes validation and nothing is emitted.  The container check fires
    when the container is absent, not when it is present. *)
Theorem validateOptions_accepts_container_without_video :
  Options.videoCodec audio_only_with_container = None
  /\ has_value (Options.container audio_only_with_container) = true
  /\ validateOptions audio_only_with_container = Done (true, []).
Proof. vm_compute. repeat split; reflexivity. Qed.

(** X4.  With a video codec selected the container check never fires:
    validation does not depend on the container. *)
Theorem validateOptions_container_irrelevant_with_video
  (inputPath outputPath : string) (videoCodec : Codec.t)
  (audioCodec : option Codec.t) (container container' : option Container.t)
  (sizeKbps audioQualityPercent : option double)
  (outputWidth outputHeight : option Z) (aspectRatio : option QPoint.t)
  (fps : option Z) (speed : option double) (customArguments : option string)
  (inputMetadata : option Metadata.t) (minV minA maxA overshoot : double) :
  validateOptions
    (Options.mk inputPath outputPath (Some videoCodec) audioCodec container
                sizeKbps audioQualityPercent outputWidth outputHeight
                aspectRatio fps speed customArguments inputMetadata
                minV minA maxA overshoot)
  = validateOptions
      (Options.mk inputPath outputPath (Some videoCodec) audioCodec container'
                  sizeKbps audioQualityPercent outputWidth outputHeight
                  aspectRatio fps speed customArguments inputMetadata
                  minV minA maxA overshoot).
Proof. reflexivity. Qed.

(** C7.  On the code: the class of the check is [[^ -/a-z0-9]], where
    [ -/] is the range from space to slash.  Arguments with [$], [(], [)],
    [&] and the double quote pass validation although they are outside
    letters, digits, space, hyphen and slash; an upper-case letter is
    rejected although it is a letter; [;] is rejected. *)
Theorem validateOptions_custom_arguments_cases :
  validateOptions (with_arguments "$(reboot)&") = Done (true, [])
  /\ validateOptions (with_arguments DQUOTE) = Done (true, [])
  /\ validateOptions (with_arguments "-preset Fast")
     = Done (false,
             [encodingFailed (tr "Custom parameters contain invalid characters.")
                             (tr "rip bozo")])
  /\ validateOptions (with_arguments "-an; reboot")
     = Done (false,
             [encodingFailed (tr "Custom parameters contain invalid characters.")
                             (tr "rip bozo")]).
Proof. vm_compute. repeat split; reflexivity. Qed.

Lemma match_at_Chr (p : ascii -> bool) (s : string) :
  match_at (Chr p) s
  = match s with
    | String c s' => if p c then Some s' else None
    | EmptyString => None
    end.
Proof. reflexivity. Qed.

Lemma hasMatch_Chr (p : ascii -> bool) (s : string) :
  hasMatch (Chr p) s = contains_char p s.
Proof.
  unfold hasMatch, search. generalize EmptyString as before.
  induction s as [|c s IH]; intros before; [reflexivity|].
  rewrite search_from_eq, match_at_Chr. simpl contains_char.
  destruct (p c); [reflexivity|]. simpl. apply IH.
Qed.

(** X2.  What the custom-arguments check does, for every request: if the
    request passes validation once its custom arguments are taken away,
    then with custom arguments it is rejected exactly when they hold a
    character that is not in the range from space to slash, not a
    lower-case letter and not a digit, with the message
    "Custom parameters contain invalid characters."; otherwise it is
    accepted and nothing is emitted. *)
Theorem validateOptions_with_arguments (options : Options.t)
  (customArguments : string) :
  validateOptions (with_customArguments options None) = Done (true, []) ->
  validateOptions (with_customArguments options (Some customArguments))
  = if contains_char invalid_custom_char customArguments
    then Done (false,
               [encodingFailed (tr "Custom parameters contain invalid characters.")
                               (tr "rip bozo")])
    else Done (true, []).
Proof.
  unfold validateOptions. cbn [with_customArguments Options.videoCodec
    Options.audioCodec Options.container Options.outputWidth
    Options.outputHeight Options.aspectRatio Options.fps Options.speed
    Options.customArguments].
  unfold custom_regex. rewrite hasMatch_Chr.
  match goal with
  | |- obind ?m _ = _ -> _ => destruct m as [error|]; [|discriminate]
  end.
  change (obind (Done error) ?f) with (f error). cbv beta zeta.
  destruct (qisEmpty error) eqn:E; [intros _|discriminate].
  destruct (contains_char invalid_custom_char customArguments);
    [reflexivity|]. rewrite E. reflexivity.
Qed.

Lemma validateOptions_with_arguments_witness :
  validateOptions (with_customArguments unprobed_request (Some "-preset Fast"))
  = Done (false,
          [encodingFailed (tr "Custom parameters contain invalid characters.")
                          (tr "rip bozo")])
  /\ validateOptions (with_customArguments unprobed_request (Some "$(reboot)&"))
     = Done (true, []).
Proof.
  split.
  - exact (validateOptions_with_arguments unprobed_request "-preset Fast"
             ltac:(vm_compute; reflexivity)).
  - exact (validateOptions_with_arguments unprobed_request "$(reboot)&"
             ltac:(vm_compute; reflexivity)).
Defined.

Lemma validateOptions_rejects_invalid_char (options : Options.t)
  (customArguments : string) (v : bool * list Notification) :
  Options.customArguments options = Some customArguments ->
  contains_char invalid_custom_char customArguments = true ->
  validateOptions options = Done v -> fst v = false.
Proof.
  intros Hargs Hbad. unfold validateOptions. rewrite Hargs.
  unfold custom_regex. rewrite hasMatch_Chr, Hbad.
  run_bind.
  intros H. injection H as <-. reflexivity.
Qed.

Lemma validateOptions_shape (options : Options.t) (v : bool * list Notification) :
  validateOptions options = Done v ->
  v = (true, []) \/ exists error details, v = (false, [encodingFailed error details]).
Proof.
  unfold validateOptions.
  run_bind.
  match goal with
  | |- (if negb (qisEmpty ?q) then _ else _) = _ -> _ => destruct (qisEmpty q)
  end; simpl; intros H; injection H as <-; [left; reflexivity|].
  right. eexists. eexists. reflexivity.
Qed.

(** ** Command construction *)

Lemma StartCompression_needs_container (w : World) (options : Options.t)
  (computed : ComputedOptions.t) (metadata : Metadata.t) (e : Encoder)
  (r : handled) :
  Options.container options = None ->
  StartCompression w options computed metadata e <> Done r.
Proof.
  intros Hc. unfold StartCompression. rewrite Hc.
  match goal with
  | |- obind ?m _ <> _ => destruct m; simpl; discriminate
  end.
Qed.

Lemma StartCompression_needs_fps (w : World) (options : Options.t)
  (computed : ComputedOptions.t) (metadata : Metadata.t) (e : Encoder)
  (r : handled) :
  Options.fps options = None ->
  StartCompression w options computed metadata e <> Done r.
Proof.
  intros Hf. unfold StartCompression. rewrite Hf.
  match goal with
  | |- obind ?m _ <> _ => destruct m; simpl; [|discriminate]
  end.
  destruct (Options.container options); simpl; discriminate.
Qed.

Lemma StartCompression_needs_video_bitrate (w : World) (options : Options.t)
  (computed : ComputedOptions.t) (metadata : Metadata.t) (e : Encoder)
  (sizeKbps : double) :
  Options.sizeKbps options = Some sizeKbps ->
  ComputedOptions.videoBitrateKbps computed = None ->
  StartCompression w options computed metadata e
  = Undefined (EmptyOptional "computed.videoBitrateKbps").
Proof.
  intros Hs Hv. unfold StartCompression. rewrite Hs, Hv. reflexivity.
Qed.

Lemma StartCompression_needs_arguments (w : World) (options : Options.t)
  (computed : ComputedOptions.t) (metadata : Metadata.t) (e : Encoder)
  (r : handled) :
  Options.customArguments options = None ->
  StartCompression w options computed metadata e = Done r ->
  launched (fst r) = launched e.
Proof.
  intros Ha. unfold StartCompression. rewrite Ha.
  run_bind.
  destruct (Options.container options) as [c|]; simpl; [|discriminate].
  destruct (Options.fps options); simpl; [|discriminate].
  destruct (extensionForContainer w c); simpl; [discriminate|].
  intros H. injection H as <-. reflexivity.
Qed.

Lemma StartCompression_shape (w : World) (options : Options.t)
  (computed : ComputedOptions.t) (metadata : Metadata.t) (e : Encoder)
  (r : handled) :
  StartCompression w options computed metadata e = Done r ->
  (fst r = e /\ map kind (snd r) = [Started; Failed])
  \/ (map kind (snd r) = [Started]
      /\ exists command, launched (fst r) = launched e ++ [command]).
Proof.
  unfold StartCompression.
  run_bind.
  destruct (Options.container options) as [c|]; simpl; [|discriminate].
  destruct (Options.fps options); simpl; [|discriminate].
  destruct (extensionForContainer w c); simpl.
  - destruct (Options.customArguments options); simpl; [|discriminate].
    intros H. injection H as <-. right. split; [reflexivity|].
    eexists. reflexivity.
  - intros H. injection H as <-. left. split; reflexivity.
Qed.

(** C10.  Requests that pass validation and make command construction
    dereference an empty optional: no frame rate, no custom arguments, a
    target size without a video codec (no video bitrate was planned), and
    no container. *)
Theorem StartCompression_dereferences_empty_optionals :
  (validateOptions without_fps = Done (true, [])
   /\ Encode (world None) without_fps new_Encoder
      = Undefined (EmptyOptional "options.fps"))
  /\ (validateOptions without_arguments = Done (true, [])
      /\ Encode (world None) without_arguments new_Encoder
         = Undefined (EmptyOptional "options.customArguments"))
  /\ (validateOptions audio_only_with_size = Done (true, [])
      /\ Options.videoCodec audio_only_with_size = None
      /\ Encode_plan audio_only_with_size hd_input
         = Done (Some (ComputedOptions.mk None (Some 128%float)))
      /\ Encode (world None) audio_only_with_size new_Encoder
         = Undefined (EmptyOptional "computed.videoBitrateKbps"))
  /\ (validateOptions without_container = Done (true, [])
      /\ Encode (world None) without_container new_Encoder
         = Undefined (EmptyOptional "options.container")).
Proof. vm_compute. repeat split; reflexivity. Qed.

(** ** Progress *)


Lemma append_cancel_r (a b c : string) :
  (a ++ c)%string = (b ++ c)%string -> a = b.
Proof.
  revert b. induction a as [|x a IH]; intros b H; destruct b as [|y b];
    simpl in H.
  - reflexivity.
  - exfalso. apply (f_equal String.length) in H. simpl in H.
    rewrite length_append in H. lia.
  - exfalso. apply (f_equal String.length) in H. simpl in H.
    rewrite length_append in H. lia.
  - injection H as -> H. f_equal. apply IH. assumption.
Qed.






Lemma digit_value_range (c : ascii) :
  is_digit c = true -> (0 <= QTime.digit_value c <= 9)%Z.
Proof.
  unfold is_digit, chr_in, QTime.digit_value. intros H.
  apply andb_true_iff in H. destruct H as [H1 H2].
  apply Nat.leb_le in H1, H2.
  change (nat_of_ascii "0") with 48%nat in H1.
  change (nat_of_ascii "9") with 57%nat in H2. lia.
Qed.

Lemma two_digits_range (a b : ascii) (z : Z) :
  QTime.two_digits a b = Some z -> (0 <= z <= 99)%Z.
Proof.
  unfold QTime.two_digits.
  destruct (is_digit a) eqn:Ha; [|discriminate].
  destruct (is_digit b) eqn:Hb; [|discriminate].
  intros H.
  change (Some (10 * QTime.digit_value a + QTime.digit_value b)%Z = Some z) in H.
  apply digit_value_range in Ha, Hb.
  assert (Hz : (10 * QTime.digit_value a + QTime.digit_value b)%Z = z)
    by congruence.
  lia.
Qed.

Lemma fromString_range (t : string) (h m s : Z) :
  QTime.fromString t = Some (h, m, s) ->
  (0 <= h <= 23 /\ 0 <= m <= 59 /\ 0 <= s <= 59)%Z.
Proof.
  unfold QTime.fromString.
  destruct t as [|h1 [|h2 [|c1 [|m1 [|m2 [|c2 [|s1 [|s2 rest]]]]]]]];
    try discriminate.
  destruct (QTime.two_digits h1 h2) as [hh|] eqn:Eh; [|discriminate].
  destruct (QTime.two_digits m1 m2) as [mm|] eqn:Em; [|discriminate].
  destruct (QTime.two_digits s1 s2) as [ss|] eqn:Es; [|discriminate].
  destruct (_ && _) eqn:E; [|discriminate].
  intros H. injection H as <- <- <-.
  apply two_digits_range in Eh, Em, Es.
  repeat (apply andb_true_iff in E; destruct E as [E ?]).
  repeat match goal with H : (_ <=? _)%Z = true |- _ => apply Z.leb_le in H end.
  lia.
Qed.

Lemma currentDuration_range (t : string) :
  (-3661 <= currentDuration (QTime.fromString t) <= 86399)%Z.
Proof.
  unfold currentDuration.
  destruct (QTime.fromString t) as [[[h m] s]|] eqn:E; simpl.
  - apply fromString_range in E. lia.
  - lia.
Qed.

Lemma scaled_duration_is_int (t : string) :
  int_result "currentDuration * 100" (currentDuration (QTime.fromString t) * 100)
  = Done (currentDuration (QTime.fromString t) * 100)%Z.
Proof.
  unfold int_result, in_range.
  pose proof (currentDuration_range t) as H.
  unfold INT_MIN, INT_MAX.
  destruct (Z.leb_spec (- 2 ^ 31) (currentDuration (QTime.fromString t) * 100));
    [|lia].
  destruct (Z.leb_spec (currentDuration (QTime.fromString t) * 100) (2 ^ 31 - 1));
    [reflexivity|lia].
Qed.







(** ** The end of the process *)

(** C4.  [EndCompression] emits exactly one notification and disconnects
    both handlers; the notification is [encodingSucceeded] if and only if
    the exit code is 0 and the output file opens for reading, and it is
    [encodingFailed] in every other case: with the parsed diagnostic when
    the exit code is not 0, and with "Could not open the compressed media."
    when the process exits with 0 but the file cannot be opened. *)
Theorem EndCompression_outcome (w : World) (options : Options.t)
  (computed : ComputedOptions.t) (outputPath : string) (command : QString)
  (exitCode : Z) (e : Encoder) :
  exists n,
    EndCompression w options computed outputPath command exitCode e
    = Done (disconnected e "", [n])
    /\ (is_succeeded n = true
        <-> exitCode = 0 /\ open_ReadOnly w outputPath = None)
    /\ (is_failed n = true
        <-> ~ (exitCode = 0 /\ open_ReadOnly w outputPath = None))
    /\ n = (if exitCode =? 0
            then match open_ReadOnly w outputPath with
                 | None => encodingSucceeded options computed outputPath
                 | Some errorString =>
                     encodingFailed (qs "Could not open the compressed media.")
                                    (qs errorString)
                 end
            else encodingFailed (qs (parseOutput (output e)))
                                (command ++ qs (NL ++ NL)%string
                                 ++ qs (output e))).
Proof.
  unfold EndCompression.
  destruct (Z.eqb_spec exitCode 0) as [Hz|Hnz]; simpl negb; cbv iota.
  - destruct (open_ReadOnly w outputPath) as [err|] eqn:Hopen;
      (eexists; split; [reflexivity|]); simpl;
      intuition (try discriminate; try congruence).
  - eexists; split; [reflexivity|]. simpl.
    intuition (try discriminate; try congruence).
Qed.

(** The finished handler, through the event dispatch, in the
    specification's scenario: exit code 0, output file missing. *)
Lemma exit_zero_without_file_fails (options : Options.t)
  (computed : ComputedOptions.t) (outputPath errorString : string)
  (command : QString) (e : Encoder) (w : World) :
  processFinishedConnection e = Some (options, computed, outputPath, command) ->
  open_ReadOnly w outputPath = Some errorString ->
  deliver w (finished 0) e
  = Done (disconnected e "",
          [encodingFailed (qs "Could not open the compressed media.")
                          (qs errorString)]).
Proof.
  intros Hconn Hopen. unfold deliver. rewrite Hconn.
  unfold EndCompression. simpl. rewrite Hopen. reflexivity.
Qed.


(** ** Diagnostic *)




Lemma strip_prefix_suffix (sep s rest : string) :
  strip_prefix sep s = Some rest -> suffix rest s.
Proof.
  revert s. induction sep as [|a sep IH]; intros s; simpl.
  - intros H. injection H as <-. constructor.
  - destruct s as [|b s]; [discriminate|].
    destruct (Ascii.eqb a b); [|discriminate].
    intros H. constructor. apply IH. assumption.
Qed.







(** ** Enough steps *)

Lemma remove_matches_enough (r : regex) (n m : nat) :
  forall s, (String.length s <= n)%nat -> (String.length s <= m)%nat ->
  remove_matches n r s = remove_matches m r s.
Proof.
  revert m. induction n as [|n IH]; intros m s Hn Hm.
  - destruct s; [|simpl in Hn; lia]. destruct m; reflexivity.
  - destruct m as [|m].
    + destruct s; [reflexivity|simpl in Hm; lia].
    + simpl. destruct s as [|c s']; [reflexivity|]. simpl in Hn, Hm.
      destruct (match_at r (String c s')) as [rest|]; [|f_equal; apply IH; lia].
      destruct (Nat.ltb_spec (String.length rest) (String.length (String c s')))
        as [Hlt|Hge]; [|f_equal; apply IH; lia].
      simpl in Hlt. apply IH; lia.
Qed.

Lemma replace_empty_enough (r : regex) (n : nat) (s : string) :
  (String.length s <= n)%nat -> remove_matches n r s = replace_empty r s.
Proof. intros H. apply remove_matches_enough; [assumption|lia]. Qed.

Lemma strip_prefix_shorter (sep s rest : string) :
  sep <> "" -> strip_prefix sep s = Some rest ->
  (String.length rest < String.length s)%nat.
Proof.
  intros Hsep H. destruct sep as [|a sep]; [congruence|].
  destruct s as [|b s]; [discriminate|]. simpl in H.
  destruct (Ascii.eqb a b); [|discriminate].
  apply strip_prefix_suffix, suffix_length in H. simpl. lia.
Qed.

Lemma split_from_enough (sep : string) (n m : nat) :
  sep <> "" ->
  forall part s, (String.length s <= n)%nat -> (String.length s <= m)%nat ->
  split_from n sep part s = split_from m sep part s.
Proof.
  intros Hsep. revert m. induction n as [|n IH]; intros m part s Hn Hm.
  - destruct s; [|simpl in Hn; lia]. destruct m; reflexivity.
  - destruct m as [|m].
    + destruct s; [reflexivity|simpl in Hm; lia].
    + simpl. destruct s as [|c s']; [reflexivity|].
      destruct (strip_prefix sep (String c s')) as [rest|] eqn:E.
      * apply (strip_prefix_shorter _ _ _ Hsep) in E.
        f_equal. apply IH; lia.
      * simpl in Hn, Hm. apply IH; lia.
Qed.

(** The depth given to [(?1)] is enough: for a pattern whose every [(?1)]
    follows a consumed character, any depth from the length of the subject
    on gives the same match. *)

Lemma suffix_shorter (a b c : string) : suffix a b -> shorter b c -> shorter a c.
Proof.
  intros Hab [Hbc Hlt]. split; [eapply suffix_trans; eassumption|].
  apply suffix_length in Hab. lia.
Qed.

Section Agreement.
Variables rec1 rec2 : string -> (string -> option string) -> option string.

Lemma go_agree_free (r : regex) :
  forall s, agree_on (fun s' => suffix s' s) rec1 rec2 ->
  agree_on (fun s' => suffix s' s) (go rec1 r) (go rec2 r).
Proof.
  induction r as [|p|r1 IH1 r2 IH2|r1 IH1 r2 IH2|r1 IH1|r1 IH1|];
    intros s0 Hrec s k1 k2 Hs Hk; simpl.
  - apply Hk. constructor.
  - destruct s as [|c s']; [reflexivity|]. destruct (p c); [|reflexivity].
    apply Hk. repeat constructor.
  - apply (IH1 s0 Hrec s); [assumption|]. intros s' Hs'.
    apply (IH2 s0 Hrec s'); [eapply suffix_trans; eassumption|].
    intros s'' Hs''. apply Hk. eapply suffix_trans; eassumption.
  - rewrite (IH1 s0 Hrec s k1 k2 Hs Hk), (IH2 s0 Hrec s k1 k2 Hs Hk).
    reflexivity.
  - generalize (String.length s). intros n. revert s Hs Hk.
    induction n as [|n IHn]; intros s Hs Hk.
    + apply Hk. constructor.
    + rewrite (Hk s (suffix_refl s)).
      match goal with
      | |- match ?a with _ => _ end = match ?b with _ => _ end =>
          replace a with b; [reflexivity|]
      end.
      symmetry. apply (IH1 s0 Hrec s); [assumption|].
      intros s' Hs'. destruct (String.length s' <? String.length s)%nat;
        [|reflexivity].
      apply IHn; [eapply suffix_trans; eassumption|].
      intros s'' Hs''. apply Hk. eapply suffix_trans; eassumption.
  - rewrite (IH1 s0 Hrec s Some Some Hs (fun _ _ => eq_refl)).
    rewrite (Hk s (suffix_refl s)). reflexivity.
  - apply Hrec; assumption.
Qed.

Lemma go_agree_guarded (r : regex) :
  guarded r = true ->
  forall s k1 k2,
    agree_on (fun s' => shorter s' s) rec1 rec2 ->
    (forall s', shorter s' s -> k1 s' = k2 s') ->
    (nullable r = true -> k1 s = k2 s) ->
    go rec1 r s k1 = go rec2 r s k2.
Proof.
  induction r as [|p|r1 IH1 r2 IH2|r1 IH1 r2 IH2|r1 IH1|r1 IH1|];
    intros Hg s k1 k2 Hrec Hk Hk0; simpl in Hg |- *.
  - apply Hk0. reflexivity.
  - destruct s as [|c s']; [reflexivity|]. destruct (p c); [|reflexivity].
    apply Hk. split; [repeat constructor|simpl; lia].
  - apply andb_true_iff in Hg. destruct Hg as [Hg1 Hg2].
    assert (Hfree : forall s', shorter s' s ->
              go rec1 r2 s' k1 = go rec2 r2 s' k2).
    { intros s' Hs'. apply (go_agree_free r2 s'); [|constructor|].
      - intros t j1 j2 Ht Hj. apply Hrec; [|assumption].
        eapply suffix_shorter; eassumption.
      - intros s'' Hs''. apply Hk. eapply suffix_shorter; eassumption. }
    apply IH1; [assumption|assumption|exact Hfree|].
    intros Hn1. rewrite Hn1 in Hg2. simpl in Hg2.
    apply IH2; [assumption|assumption|assumption|].
    intros Hn2. apply Hk0. simpl. rewrite Hn1, Hn2. reflexivity.
  - apply andb_true_iff in Hg. destruct Hg as [Hg1 Hg2].
    rewrite (IH1 Hg1 s k1 k2 Hrec Hk), (IH2 Hg2 s k1 k2 Hrec Hk);
      [reflexivity| |];
      intros Hn; apply Hk0; simpl; rewrite Hn;
      [apply orb_true_r|reflexivity].
  - specialize (Hk0 eq_refl).
    assert (Hall : forall s', suffix s' s -> k1 s' = k2 s').
    { intros s' Hs'.
      destruct (Nat.lt_ge_cases (String.length s') (String.length s))
        as [Hlt|Hge]; [apply Hk; split; assumption|].
      inversion Hs'; subst; [assumption|].
      match goal with H : suffix _ _ |- _ => apply suffix_length in H end.
      simpl in Hge. lia. }
    clear Hk Hk0. generalize (String.length s). intros n.
    match goal with
    | |- ?loop1 n s = ?loop2 n s =>
        enough (Hloop : forall t, suffix t s -> loop1 n t = loop2 n t)
          by (apply Hloop; constructor)
    end.
    induction n as [|n IHn]; intros t Ht.
    + apply Hall. assumption.
    + rewrite (Hall t Ht).
      match goal with
      | |- match ?a with _ => _ end = match ?b with _ => _ end =>
          replace a with b; [reflexivity|]
      end.
      symmetry. apply IH1; [assumption| | |].
      * intros u j1 j2 Hu Hj. apply Hrec; [|assumption].
        destruct Hu as [Hu Hlt]. split; [eapply suffix_trans; eassumption|].
        apply suffix_length in Ht. lia.
      * intros s' [Hs' Hlt].
        apply Nat.ltb_lt in Hlt. rewrite Hlt.
        apply IHn. eapply suffix_trans; eassumption.
      * intros _. rewrite Nat.ltb_irrefl. reflexivity.
  - rewrite (IH1 Hg s Some Some Hrec (fun _ _ => eq_refl) (fun _ => eq_refl)).
    rewrite (Hk0 eq_refl). reflexivity.
  - discriminate.
Qed.
End Agreement.

Lemma recursion_enough (top : regex) :
  guarded top = true ->
  forall n s d1 d2,
    (String.length s < n)%nat ->
    (String.length s < d1)%nat -> (String.length s < d2)%nat ->
    forall k1 k2, (forall s', suffix s' s -> k1 s' = k2 s') ->
    recursion d1 top s k1 = recursion d2 top s k2.
Proof.
  intros Hg. induction n as [|n IH]; intros s d1 d2 Hn H1 H2 k1 k2 Hk; [lia|].
  destruct d1 as [|d1]; [lia|]. destruct d2 as [|d2]; [lia|]. simpl.
  apply go_agree_guarded; [assumption| | |].
  - intros s' j1 j2 [Hs' Hlt] Hj. apply IH; [lia|lia|lia|assumption].
  - intros s' [Hs' _]. apply Hk. assumption.
  - intros _. apply Hk. constructor.
Qed.

(** Any depth from the length of the subject on gives the match of
    [match_at]. *)
Lemma match_at_enough (top : regex) (s : string) (depth : nat) :
  guarded top = true -> (String.length s <= depth)%nat ->
  rmatch depth top top s Some = match_at top s.
Proof.
  intros Hg Hd. unfold match_at, rmatch.
  apply go_agree_guarded; [assumption| |reflexivity|reflexivity].
  intros s' j1 j2 [Hs' Hlt] Hj.
  apply (recursion_enough top Hg (S (String.length s'))); [lia|lia|lia|assumption].
Qed.

Lemma noise_regex_guarded : guarded noise_regex = true.
Proof. reflexivity. Qed.



(** ** The order of the notifications *)

(** C5.  On the code: a request whose process crashes.  Qt reports the
    crash as [errorOccurred(Crashed)] followed by [finished]; the handler
    of the first emits [encodingFailed] and leaves both connections in
    place, and [EndCompression] then emits a second terminal notification.
    After a read error the run goes on to report progress and success. *)
Theorem crash_emits_two_terminal_notifications :
  let options := size_request (Some 1920) (Some 1080) (Some 30) (Some "") in
  trace (world None) options [errorOccurred Crashed; finished 11]
  = Some [Started; Failed; Failed]
  /\ trace (world None) options
       [errorOccurred ReadError; readyRead "time=00:01:00.00"; finished 0]
     = Some [Started; Failed; Progress; Succeeded].
Proof. vm_compute. split; reflexivity. Qed.





Lemma validateOptions_undefined (options : Options.t) :
  speed_message_undefined options = true ->
  validateOptions options = Undefined (EmptyOptional "fps").
Proof.
  unfold speed_message_undefined, validateOptions.
  destruct (Options.speed options) as [sp|]; [|discriminate].
  destruct (Options.fps options) as [f|]; [discriminate|].
  intros ->. reflexivity.
Qed.

Lemma validateOptions_accepted (options : Options.t) :
  acceptable options = true -> validateOptions options = Done (true, []).
Proof.
  unfold acceptable. intros H.
  apply andb_true_iff in H. destruct H as [H R5].
  apply andb_true_iff in H. destruct H as [H R4].
  apply andb_true_iff in H. destruct H as [H R3].
  apply andb_true_iff in H. destruct H as [H R2].
  apply andb_true_iff in H. destruct H as [H R1].
  apply andb_true_iff in H. destruct H as [H R0].
  apply andb_true_iff in H. destruct H as [H R].
  unfold validateOptions.
  assert (E1 : negb (has_value (Options.videoCodec options))
               && negb (has_value (Options.audioCodec options)) = false).
  { destruct (has_value (Options.videoCodec options)),
             (has_value (Options.audioCodec options)); simpl in *; congruence. }
  assert (E2 : negb (has_value (Options.videoCodec options))
               && negb (has_value (Options.container options)) = false).
  { destruct (has_value (Options.videoCodec options)),
             (has_value (Options.container options)); simpl in *; congruence. }
  rewrite E1, E2. clear E1 E2 H R.
  destruct (Options.outputWidth options) as [w|];
    [apply Z.leb_le in R0; destruct (Z.ltb_spec w 0); [lia|] |];
  (destruct (Options.outputHeight options) as [h|];
    [apply Z.leb_le in R1; destruct (Z.ltb_spec h 0); [lia|] |]);
  (destruct (Options.aspectRatio options) as [a|];
    [apply andb_true_iff in R2; destruct R2 as [Rx Ry];
     apply Z.ltb_lt in Rx, Ry;
     destruct (Z.leb_spec (QPoint.x a) 0); [lia|];
     destruct (Z.leb_spec (QPoint.y a) 0); [lia|] |]);
  (destruct (Options.fps options) as [f|];
    [apply Z.leb_le in R3; destruct (Z.ltb_spec f 0); [lia|] |]);
  (destruct (Options.speed options) as [sp|];
    [apply negb_true_iff in R4; rewrite R4 |]);
  (destruct (Options.customArguments options) as [args|];
    [apply negb_true_iff in R5; unfold custom_regex; rewrite hasMatch_Chr, R5 |]);
  reflexivity.
Qed.

Lemma validateOptions_rejected (options : Options.t) :
  speed_message_undefined options = false ->
  acceptable options = false ->
  exists error,
    qisEmpty error = false
    /\ validateOptions options
       = Done (false, [encodingFailed error (tr "rip bozo")]).
Proof.
  unfold speed_message_undefined, acceptable, validateOptions. cbv zeta.
  destruct (Options.speed options) as [sp|].
  - destruct (PrimFloat.ltb sp 0) eqn:Esp.
    + destruct (Options.fps options) as [f|]; [|discriminate].
      simpl obind.
      destruct (Options.customArguments options) as [args|];
        [destruct (hasMatch custom_regex args)|]; rule_fired.
    + simpl obind. intros _.
      destruct (Options.customArguments options) as [args|];
        [unfold custom_regex; rewrite hasMatch_Chr;
         destruct (contains_char invalid_custom_char args); [rule_fired|] |];
      (destruct (Options.fps options) as [f|];
         [rewrite (Z.ltb_antisym 0 f); destruct (0 <=? f); [|rule_fired] |]);
      (destruct (Options.aspectRatio options) as [a|];
         [rewrite (Z.leb_antisym 0 (QPoint.y a)); destruct (0 <? QPoint.y a);
          [|rule_fired];
          rewrite (Z.leb_antisym 0 (QPoint.x a)); destruct (0 <? QPoint.x a);
          [|rule_fired] |]);
      (destruct (Options.outputHeight options) as [h|];
         [rewrite (Z.ltb_antisym 0 h); destruct (0 <=? h); [|rule_fired] |]);
      (destruct (Options.outputWidth options) as [w|];
         [rewrite (Z.ltb_antisym 0 w); destruct (0 <=? w); [|rule_fired] |]);
      (destruct (has_value (Options.videoCodec options));
       destruct (has_value (Options.container options));
       destruct (has_value (Options.audioCodec options));
       simpl; try discriminate; rule_fired).
  - simpl obind. intros _.
    destruct (Options.customArguments options) as [args|];
      [unfold custom_regex; rewrite hasMatch_Chr;
       destruct (contains_char invalid_custom_char args); [rule_fired|] |];
    (destruct (Options.fps options) as [f|];
       [rewrite (Z.ltb_antisym 0 f); destruct (0 <=? f); [|rule_fired] |]);
    (destruct (Options.aspectRatio options) as [a|];
       [rewrite (Z.leb_antisym 0 (QPoint.y a)); destruct (0 <? QPoint.y a);
        [|rule_fired];
        rewrite (Z.leb_antisym 0 (QPoint.x a)); destruct (0 <? QPoint.x a);
        [|rule_fired] |]);
    (destruct (Options.outputHeight options) as [h|];
       [rewrite (Z.ltb_antisym 0 h); destruct (0 <=? h); [|rule_fired] |]);
    (destruct (Options.outputWidth options) as [w|];
       [rewrite (Z.ltb_antisym 0 w); destruct (0 <=? w); [|rule_fired] |]);
    (destruct (has_value (Options.videoCodec options));
     destruct (has_value (Options.container options));
     destruct (has_value (Options.audioCodec options));
     simpl; try discriminate; rule_fired).
Qed.

(** ** The pixel ratio *)

Lemma computePixelRatio_needs_both (options : Options.t) (metadata : Metadata.t)
  (pixelRatio : double) :
  computePixelRatio options metadata = Done pixelRatio ->
  exists w h, Options.outputWidth options = Some w
              /\ Options.outputHeight options = Some h.
Proof.
  unfold computePixelRatio.
  destruct (double_to_long _ _); simpl; [|discriminate].
  destruct (Options.outputWidth options) as [w|]; simpl; [|discriminate].
  destruct (Options.outputHeight options) as [h|]; simpl; [|discriminate].
  intros _. exists w, h. split; reflexivity.
Qed.

(** X8.  Whenever [computePixelRatio] runs without undefined behaviour
    (no empty optional is read, no conversion or product is out of range),
    both output dimensions are set and the ratio is computed from the
    output height alone.  With outputWidth the integral part of
    outputHeight * aspectRatioX / aspectRatioY, outputPixelCount the
    product outputWidth * outputHeight and inputPixelCount the integral
    part of width * height, the ratio is outputPixelCount / inputPixelCount
    when 0 < outputPixelCount < inputPixelCount, and 1 otherwise.  The
    requested width plays no part: any other requested width gives the same
    ratio. *)
Theorem computePixelRatio_defined (options : Options.t) (metadata : Metadata.t)
  (pixelRatio : double) :
  computePixelRatio options metadata = Done pixelRatio ->
  exists requestedWidth outputHeight inputPixelCount outputWidth : Z,
    Options.outputWidth options = Some requestedWidth
    /\ Options.outputHeight options = Some outputHeight
    /\ double_to_long "inputPixelCount"
         (Metadata.width metadata * Metadata.height metadata)%float
       = Done inputPixelCount
    /\ double_to_int "outputWidth"
         (to_double outputHeight * Metadata.aspectRatioX metadata
          / Metadata.aspectRatioY metadata)%float
       = Done outputWidth
    /\ in_range INT_MIN INT_MAX (outputWidth * outputHeight) = true
    /\ pixelRatio
       = (let outputPixelCount := to_double (outputWidth * outputHeight) in
          if PrimFloat.ltb 0 outputPixelCount
             && PrimFloat.ltb outputPixelCount (to_double inputPixelCount)
          then (outputPixelCount / to_double inputPixelCount)%float
          else 1%float)
    /\ forall w',
         computePixelRatio (with_outputWidth options (Some w')) metadata
         = Done pixelRatio.
Proof.
  unfold computePixelRatio.
  cbn [with_outputWidth Options.outputWidth Options.outputHeight].
  destruct (double_to_long _ _) as [inputPixels|]; [|discriminate].
  change (obind (Done inputPixels) ?f) with (f inputPixels). cbv beta.
  destruct (Options.outputWidth options) as [w|]; [|discriminate].
  cbn [has_value]. cbv iota.
  destruct (Options.outputHeight options) as [h|]; [|discriminate].
  cbn [deref]. change (obind (Done h) ?f) with (f h). cbv beta.
  destruct (double_to_int _ _) as [ow|] eqn:Ed; [|discriminate].
  change (obind (Done ow) ?f) with (f ow). cbv beta.
  change (obind (Done (ow, h)) ?f) with (f (ow, h)). cbv beta.
  cbn [fst snd]. unfold int_result.
  destruct (in_range INT_MIN INT_MAX (ow * h)) eqn:Er; [|discriminate].
  change (obind (Done (ow * h)) ?f) with (f (ow * h)). cbv beta zeta.
  intros H. exists w, h, inputPixels, ow.
  assert (Hr : pixelRatio
               = if PrimFloat.ltb 0 (to_double (ow * h))
                    && PrimFloat.ltb (to_double (ow * h)) (to_double inputPixels)
                 then (to_double (ow * h) / to_double inputPixels)%float
                 else 1%float).
  { destruct (PrimFloat.ltb 0 (to_double (ow * h))
              && PrimFloat.ltb (to_double (ow * h)) (to_double inputPixels));
      injection H as <-; reflexivity. }
  repeat split; try reflexivity; try assumption.
  intros w'. exact H.
Qed.

Lemma computePixelRatio_defined_witness :
  computePixelRatio (size_request (Some 100) (Some 90) (Some 30) (Some "")) hd_input
  = Done (to_double (160 * 90) / to_double 2073600)%float
  /\ computePixelRatio (size_request (Some 4000) (Some 90) (Some 30) (Some "")) hd_input
     = Done (to_double (160 * 90) / to_double 2073600)%float.
Proof.
  assert (H : computePixelRatio
                (size_request (Some 100) (Some 90) (Some 30) (Some "")) hd_input
              = Done (to_double (160 * 90) / to_double 2073600)%float)
    by (vm_compute; reflexivity).
  split; [exact H|].
  destruct (computePixelRatio_defined _ _ _ H)
    as (w & h & inputPixelCount & outputWidth & _ & _ & _ & _ & _ & _ & Hw).
  exact (Hw 4000).
Defined.

(** ** Floors *)

Lemma qMax_floor (a b : double) :
  PrimFloat.is_nan a = false -> PrimFloat.leb a (qMax a b) = true.
Proof.
  intros Ha. apply is_nan_false_compare in Ha. apply SFcompare_refl in Ha.
  unfold qMax. rewrite FloatAxioms.ltb_spec. unfold SFltb.
  destruct (SFcompare (Prim2SF a) (Prim2SF b)) as [[]|] eqn:E;
    rewrite FloatAxioms.leb_spec; unfold SFleb; rewrite ?E, ?Ha; reflexivity.
Qed.

Lemma ComputeVideoBitrate_floor (options : Options.t)
  (computed computed' : ComputedOptions.t) (metadata : Metadata.t) :
  ComputeVideoBitrate options computed metadata = Done computed' ->
  exists x, ComputedOptions.videoBitrateKbps computed'
            = Some (qMax (Options.minVideoBitrateKbps options) x).
Proof.
  unfold ComputeVideoBitrate.
  destruct (computePixelRatio options metadata); simpl; [|discriminate].
  destruct (Options.sizeKbps options); simpl; [|discriminate].
  intros H. injection H as <-. eexists. reflexivity.
Qed.

(** X9.  The bitrates that [Encode] plans respect their floors: a planned
    video bitrate is at least [minVideoBitrateKbps] and a planned audio
    bitrate at least [minAudioBitrateKbps], whenever the floor is a
    number. *)
Theorem planned_bitrates_respect_floors (options : Options.t)
  (metadata : Metadata.t) (computed : ComputedOptions.t) :
  Encode_plan options metadata = Done (Some computed) ->
  (forall video,
     ComputedOptions.videoBitrateKbps computed = Some video ->
     PrimFloat.is_nan (Options.minVideoBitrateKbps options) = false ->
     PrimFloat.leb (Options.minVideoBitrateKbps options) video = true)
  /\ (forall audio,
        ComputedOptions.audioBitrateKbps computed = Some audio ->
        PrimFloat.is_nan (Options.minAudioBitrateKbps options) = false ->
        PrimFloat.leb (Options.minAudioBitrateKbps options) audio = true).
Proof.
  unfold Encode_plan.
  destruct (has_value (Options.audioCodec options)); cbv iota;
    [unfold computeAudioBitrate|]; simpl negb; cbv iota;
    (destruct (has_value (Options.videoCodec options)
               && has_value (Options.sizeKbps options));
     [ destruct (ComputeVideoBitrate options _ metadata) as [c'|] eqn:E;
       simpl; [|discriminate];
       intros H; injection H as <-;
       pose proof (ComputeVideoBitrate_keeps_audio _ _ _ _ E) as Ha;
       destruct (ComputeVideoBitrate_floor _ _ _ _ E) as [x Hv];
       rewrite Ha, Hv; simpl
     | intros H; injection H as <-; simpl ]);
    (split; intros v Hv' Hnan; try discriminate;
     injection Hv' as <-; apply qMax_floor; assumption).
Qed.

Lemma planned_bitrates_respect_floors_witness :
  Encode_plan (size_request (Some 1920) (Some 1080) (Some 30) (Some "")) hd_input
  = Done (Some (ComputedOptions.mk (Some 64%float) (Some 128%float)))
  /\ PrimFloat.leb 64 64 = true
  /\ PrimFloat.leb 16 128 = true.
Proof.
  assert (H : Encode_plan
                (size_request (Some 1920) (Some 1080) (Some 30) (Some ""))
                hd_input
              = Done (Some (ComputedOptions.mk (Some 64%float) (Some 128%float))))
    by (vm_compute; reflexivity).
  destruct (planned_bitrates_respect_floors _ _ _ H) as [Hv Ha].
  split; [exact H|].
  split; [apply (Hv 64%float) | apply (Ha 128%float)]; reflexivity.
Defined.

(** ** Starting *)

(** X10.  What [StartCompression] does when it returns.  The container is
    set and [encodingStarted] comes first, with the planned bitrates, 0 for
    one that was not planned.  If the extension query fails, the message of
    the failure is emitted, nothing is connected or started and the encoder
    is unchanged.  Otherwise nothing more is emitted, the buffer is kept,
    the progress handler is connected with the duration of the input, the
    finished handler with the request, the plan, the output path followed
    by a dot and the extension, and the command, and that command is
    started. *)
Theorem StartCompression_effect (w : World) (options : Options.t)
  (computed : ComputedOptions.t) (metadata : Metadata.t) (e : Encoder)
  (r : handled) :
  StartCompression w options computed metadata e = Done r ->
  exists container started,
    Options.container options = Some container
    /\ started
       = encodingStarted
           match ComputedOptions.videoBitrateKbps computed with
           | Some v => v | None => 0%float end
           match ComputedOptions.audioBitrateKbps computed with
           | Some a => a | None => 0%float end
    /\ match extensionForContainer w container with
       | inl fileExtension =>
           exists command,
             snd r = [started]
             /\ output (fst r) = output e
             /\ processUpdateConnection (fst r)
                = Some (Metadata.durationSeconds metadata)
             /\ processFinishedConnection (fst r)
                = Some (options, computed,
                        (Options.outputPath options ++ "." ++ fileExtension)%string,
                        command)
             /\ launched (fst r) = launched e ++ [command]
       | inr message =>
           fst r = e
           /\ snd r = [started; encodingFailed (Message.message message) (qs "")]
       end.
Proof.
  unfold StartCompression.
  match goal with
  | |- obind ?m _ = _ -> _ => destruct m; simpl; [|discriminate]
  end.
  destruct (Options.container options) as [c|]; simpl; [|discriminate].
  destruct (Options.fps options); simpl; [|discriminate].
  destruct (extensionForContainer w c) as [ext|msg] eqn:Ex; simpl.
  - destruct (Options.customArguments options); simpl; [|discriminate].
    intros H. injection H as <-. exists c. eexists. split; [reflexivity|].
    split; [unfold value_or; reflexivity|]. rewrite Ex. eexists. simpl.
    repeat split; reflexivity.
  - intros H. injection H as <-. exists c. eexists. split; [reflexivity|].
    split; [unfold value_or; reflexivity|]. rewrite Ex. split; reflexivity.
Qed.

Lemma StartCompression_effect_witness :
  exists r,
    StartCompression (world None)
      (size_request (Some 1920) (Some 1080) (Some 30) (Some ""))
      (ComputedOptions.mk (Some 64%float) (Some 128%float)) hd_input new_Encoder
    = Done r
    /\ snd r = [encodingStarted 64%float 128%float]
    /\ exists command, launched (fst r) = [command].
Proof.
  destruct (StartCompression (world None)
              (size_request (Some 1920) (Some 1080) (Some 30) (Some ""))
              (ComputedOptions.mk (Some 64%float) (Some 128%float)) hd_input
              new_Encoder) as [r|u] eqn:E.
  - exists r. split; [reflexivity|].
    destruct (StartCompression_effect _ _ _ _ _ _ E)
      as [container [started [Hc [Hs H]]]].
    injection Hc as <-. subst started.
    change (extensionForContainer (world None) mp4) with (@inl string Message.t "mp4") in H.
    destruct H as [command [Hlog [_ [_ [_ Hl]]]]].
    split; [exact Hlog|]. exists command. exact Hl.
  - vm_compute in E. discriminate E.
Defined.

(** ** [Encode], case by case *)

Lemma Encode_cases (w : World) (options : Options.t) (e : Encoder) (r : handled) :
  Encode w options e = Done r ->
  (exists log, validateOptions options = Done (false, log) /\ r = (e, log))
  \/ (validateOptions options = Done (true, [])
      /\ Options.inputMetadata options = None
      /\ exists error,
           fst (getMetadata w (Options.inputPath options)) = inr error
           /\ r = (e, [metadataComputed;
                       encodingFailed (Metadata.summary error)
                                      (Metadata.details error)]))
  \/ (validateOptions options = Done (true, [])
      /\ exists metadata probed computed r1,
           ((Options.inputMetadata options = Some metadata /\ probed = [])
            \/ (Options.inputMetadata options = None
                /\ fst (getMetadata w (Options.inputPath options)) = inl metadata
                /\ probed = [metadataComputed]))
           /\ Encode_plan options metadata = Done (Some computed)
           /\ StartCompression w options computed metadata e = Done r1
           /\ r = (fst r1, probed ++ snd r1)).
Proof.
  unfold Encode. intros H.
  destruct (validateOptions options) as [v|] eqn:Ev; simpl in H; [|discriminate].
  destruct (validateOptions_shape _ _ Ev) as [Hv | [error [details Hv]]];
    subst v; simpl in H.
  2:{ injection H as <-. left. eexists. split; reflexivity. }
  right. revert H.
  destruct (Options.inputMetadata options) as [m|] eqn:Em.
  - destruct (Encode_plan options m) as [plan|] eqn:Ep; simpl; [|discriminate].
    destruct (Encode_plan_some _ _ _ Ep) as [computed ->].
    destruct (StartCompression w options computed m e) as [r1|] eqn:Es;
      simpl; [|discriminate].
    intros H. injection H as <-. right. split; [reflexivity|].
    exists m, [], computed, r1. repeat split; try assumption.
    left. split; reflexivity.
  - unfold getMetadata at 1. cbv zeta.
    destruct (fromJson w _) as [m|error] eqn:Ej.
    + destruct (Encode_plan options m) as [plan|] eqn:Ep; simpl; [|discriminate].
      destruct (Encode_plan_some _ _ _ Ep) as [computed ->].
      destruct (StartCompression w options computed m e) as [r1|] eqn:Es;
        simpl; [|discriminate].
      intros H. injection H as <-. right. split; [reflexivity|].
      exists m, [metadataComputed], computed, r1. repeat split; try assumption.
      right. repeat split. unfold getMetadata. simpl. exact Ej.
    + intros H. injection H as <-. left. repeat split.
      exists error. split; [|reflexivity]. unfold getMetadata. simpl. exact Ej.
Qed.

Lemma validateOptions_true_acceptable (options : Options.t) (log : list Notification) :
  validateOptions options = Done (true, log) ->
  acceptable options = true /\ log = [].
Proof.
  intros H.
  destruct (speed_message_undefined options) eqn:Es.
  - rewrite (validateOptions_undefined _ Es) in H. discriminate.
  - destruct (acceptable options) eqn:Ea.
    + rewrite (validateOptions_accepted _ Ea) in H. injection H as <-.
      split; reflexivity.
    + destruct (validateOptions_rejected _ Es Ea) as [error [_ Hr]].
      rewrite Hr in H. discriminate.
Qed.

(** X5.  What [validateOptions] decides, for every request.  It accepts,
    emitting nothing, exactly when every rule holds: a codec is selected, a
    video codec or a container is present, the output width and height are
    not negative, both aspect terms are positive, the frame rate and the
    speed are not negative, and the custom arguments hold no character of
    the forbidden class.  Otherwise it rejects with exactly one
    [encodingFailed] whose summary is not empty and whose details are
    "rip bozo"; except that a negative speed without a frame rate makes
    the message read the empty [fps]. *)
Theorem validateOptions_decides (options : Options.t) :
  (speed_message_undefined options = true
   /\ validateOptions options = Undefined (EmptyOptional "fps"))
  \/ (speed_message_undefined options = false
      /\ acceptable options = true
      /\ validateOptions options = Done (true, []))
  \/ (speed_message_undefined options = false
      /\ acceptable options = false
      /\ exists error,
           qisEmpty error = false
           /\ validateOptions options
              = Done (false, [encodingFailed error (tr "rip bozo")])).
Proof.
  destruct (speed_message_undefined options) eqn:Es.
  - left. split; [reflexivity|]. apply validateOptions_undefined. assumption.
  - right. destruct (acceptable options) eqn:Ea.
    + left. repeat split. apply validateOptions_accepted. assumption.
    + right. repeat split. apply validateOptions_rejected; assumption.
Qed.

(** X6.  A request that validation rejects stops there: [Encode] emits
    the single failure of [validateOptions], leaves the encoder as it was
    and starts no process, so the whole request consists of that one
    notification whatever the process events would have been. *)
Theorem Encode_rejected (w : World) (options : Options.t) (e : Encoder) :
  speed_message_undefined options = false ->
  acceptable options = false ->
  exists error,
    qisEmpty error = false
    /\ Encode w options e = Done (e, [encodingFailed error (tr "rip bozo")])
    /\ forall evs,
         request w options evs
         = Done (new_Encoder, [encodingFailed error (tr "rip bozo")]).
Proof.
  intros Hs Ha. destruct (validateOptions_rejected _ Hs Ha) as [error [He Hv]].
  exists error. split; [assumption|].
  assert (HE : forall e', Encode w options e'
                          = Done (e', [encodingFailed error (tr "rip bozo")])).
  { intros e'. unfold Encode. rewrite Hv. reflexivity. }
  split; [apply HE|]. intros evs. unfold request. rewrite HE. reflexivity.
Qed.

Lemma Encode_rejected_witness :
  exists error,
    qisEmpty error = false
    /\ Encode (world None) no_codec_request new_Encoder
       = Done (new_Encoder, [encodingFailed error (tr "rip bozo")])
    /\ forall evs,
         request (world None) no_codec_request evs
         = Done (new_Encoder, [encodingFailed error (tr "rip bozo")]).
Proof.
  apply (Encode_rejected (world None) no_codec_request new_Encoder); reflexivity.
Defined.

(** X7.  Whenever a run of [Encode] has no undefined behaviour (no empty
    optional is read, no conversion is undefined) and has started ffmpeg,
    the request passes every validation rule and has a container, a frame
    rate and custom arguments; when a target size is set, it also has a
    video codec, an output width and an output height.  The process is
    started once: one command is added to the launched commands. *)
Theorem Encode_launch_requirements (w : World) (options : Options.t)
  (e : Encoder) (r : handled) :
  Encode w options e = Done r ->
  launched (fst r) <> launched e ->
  acceptable options = true
  /\ has_value (Options.container options) = true
  /\ has_value (Options.fps options) = true
  /\ has_value (Options.customArguments options) = true
  /\ (has_value (Options.sizeKbps options) = true ->
      has_value (Options.videoCodec options) = true
      /\ has_value (Options.outputWidth options) = true
      /\ has_value (Options.outputHeight options) = true)
  /\ exists command, launched (fst r) = launched e ++ [command].
Proof.
  intros H Hl.
  destruct (Encode_cases _ _ _ _ H)
    as [[log [_ ->]] | [[_ [_ [error [_ ->]]]]
       | [Hv [metadata [probed [computed [r1 [_ [Hp [Hs ->]]]]]]]]]];
    try (simpl in Hl; congruence).
  simpl in Hl |- *.
  apply validateOptions_true_acceptable in Hv. destruct Hv as [Ha _].
  split; [assumption|].
  destruct (StartCompression_shape _ _ _ _ _ _ Hs) as [[He _] | [_ [command Hc]]];
    [congruence|].
  assert (Hcontainer : has_value (Options.container options) = true).
  { destruct (Options.container options) eqn:E; [reflexivity|].
    exfalso. exact (StartCompression_needs_container _ _ _ _ _ _ E Hs). }
  assert (Hfps : has_value (Options.fps options) = true).
  { destruct (Options.fps options) eqn:E; [reflexivity|].
    exfalso. exact (StartCompression_needs_fps _ _ _ _ _ _ E Hs). }
  assert (Hargs : has_value (Options.customArguments options) = true).
  { destruct (Options.customArguments options) eqn:E; [reflexivity|].
    exfalso. apply Hl. apply (StartCompression_needs_arguments _ _ _ _ _ _ E Hs). }
  split; [assumption|]. split; [assumption|]. split; [assumption|].
  split; [|exists command; assumption].
  intros Hsize.
  assert (Hgoal : has_value (Options.videoCodec options) = true
                  /\ has_value (Options.outputWidth options)
                      && has_value (Options.outputHeight options) = true);
    [|destruct Hgoal as [G1 G2]; apply andb_true_iff in G2;
      destruct G2; repeat split; assumption].
  destruct (Options.sizeKbps options) as [size|] eqn:Esize; [|discriminate].
  destruct (ComputedOptions.videoBitrateKbps computed) as [v|] eqn:Ev;
    [|rewrite (StartCompression_needs_video_bitrate _ _ _ _ _ _ Esize Ev) in Hs;
      discriminate].
  assert (Hvideo : exists c0, ComputeVideoBitrate options c0 metadata = Done computed).
  { revert Hp. unfold Encode_plan. rewrite Esize.
    destruct (has_value (Options.audioCodec options)); cbv iota;
      [unfold computeAudioBitrate|]; simpl negb; cbv iota;
      (destruct (Options.videoCodec options) as [vc|]; simpl;
       [|intros Hp; injection Hp as <-; simpl in Ev; discriminate]);
      match goal with
      | |- obind (ComputeVideoBitrate options ?c0 metadata) _ = _ -> _ =>
          destruct (ComputeVideoBitrate options c0 metadata) as [c'|] eqn:Ec;
          simpl; [|discriminate]; intros Hp; injection Hp as <-;
          exists c0; assumption
      end. }
  destruct Hvideo as [c0 Ec].
  split.
  - revert Hp. unfold Encode_plan. rewrite Esize.
    destruct (has_value (Options.audioCodec options)); cbv iota;
      [unfold computeAudioBitrate|]; simpl negb; cbv iota;
      (destruct (Options.videoCodec options) as [vc|]; simpl; [reflexivity|]);
      intros Hp; injection Hp as <-; simpl in Ev; discriminate.
  - unfold ComputeVideoBitrate in Ec.
    destruct (computePixelRatio options metadata) as [ratio|] eqn:Er;
      [|discriminate].
    destruct (computePixelRatio_needs_both _ _ _ Er) as [ow [oh [-> ->]]].
    reflexivity.
Qed.

Lemma Encode_launch_requirements_witness :
  acceptable (size_request (Some 1920) (Some 1080) (Some 30) (Some "")) = true
  /\ exists command r,
       Encode (world None)
         (size_request (Some 1920) (Some 1080) (Some 30) (Some "")) new_Encoder
       = Done r
       /\ launched (fst r) = [command].
Proof.
  destruct (Encode (world None)
              (size_request (Some 1920) (Some 1080) (Some 30) (Some ""))
              new_Encoder) as [r|u] eqn:E.
  - assert (Hl : launched (fst r) <> launched new_Encoder).
    { vm_compute in E. injection E as <-. discriminate. }
    destruct (Encode_launch_requirements _ _ _ _ E Hl)
      as [Ha [_ [_ [_ [_ [command Hc]]]]]].
    split; [exact Ha|]. exists command, r. split; [reflexivity|exact Hc].
  - vm_compute in E. discriminate E.
Defined.

(** ** The probe *)

(** X11.  [Encode] runs the probe, and [metadataComputed] is emitted,
    exactly for a request that passes validation and brings no metadata.
    When the probe fails, its summary and details are reported in an
    [encodingFailed] right after [metadataComputed], and the encoder is
    left unchanged. *)
Theorem Encode_probes_when_needed (w : World) (options : Options.t)
  (e : Encoder) (r : handled) :
  Encode w options e = Done r ->
  (In metadataComputed (snd r)
   <-> acceptable options = true /\ Options.inputMetadata options = None)
  /\ (forall error,
        acceptable options = true ->
        Options.inputMetadata options = None ->
        fst (getMetadata w (Options.inputPath options)) = inr error ->
        r = (e, [metadataComputed;
                 encodingFailed (Metadata.summary error)
                                (Metadata.details error)])).
Proof.
  intros H.
  destruct (Encode_cases _ _ _ _ H)
    as [[log [Hv ->]] | [[Hv [Hm [error [He ->]]]]
       | [Hv [metadata [probed [computed [r1 [Hm [Hp [Hs ->]]]]]]]]]].
  - assert (Ha : acceptable options = false).
    { destruct (acceptable options) eqn:Ea; [|reflexivity].
      rewrite (validateOptions_accepted _ Ea) in Hv. discriminate. }
    destruct (validateOptions_shape _ _ Hv) as [Hl | [err [det Hl]]];
      [discriminate|]. injection Hl as ->.
    split.
    + simpl. split; [intros [Hin|[]]; discriminate|intros [Hx _]; congruence].
    + intros error Hacc. congruence.
  - apply validateOptions_true_acceptable in Hv. destruct Hv as [Ha _].
    split.
    + simpl. split; [intros _; split; assumption|intros _; left; reflexivity].
    + intros error' _ _ He'. rewrite He in He'. injection He' as <-. reflexivity.
  - apply validateOptions_true_acceptable in Hv. destruct Hv as [Ha _].
    assert (Hstart : ~ In metadataComputed (snd r1)).
    { intros Hin. apply (in_map kind) in Hin.
      destruct (StartCompression_shape _ _ _ _ _ _ Hs) as [[_ Hk] | [Hk _]];
        rewrite Hk in Hin; simpl in Hin; intuition discriminate. }
    simpl. destruct Hm as [[Hm ->] | [Hm [Hg ->]]].
    + split.
      * simpl. split; [intros Hin; contradiction|intros [_ Hn]; congruence].
      * intros error _ Hn. congruence.
    + split.
      * simpl. split; [intros _; split; assumption|intros _; left; reflexivity].
      * intros error _ _ He. simpl in Hg. congruence.
Qed.

Lemma Encode_probes_when_needed_witness :
  Encode failing_probe unprobed_request new_Encoder
  = Done (new_Encoder,
          [metadataComputed;
           encodingFailed (qs "Could not probe") (qs "no streams")]).
Proof.
  destruct (Encode failing_probe unprobed_request new_Encoder) as [r|u] eqn:E.
  - destruct (Encode_probes_when_needed _ _ _ _ E) as [_ H].
    rewrite (H (Metadata.mkError (qs "Could not probe") (qs "no streams")));
      reflexivity.
  - vm_compute in E. discriminate E.
Defined.

(** ** The output buffer *)





(** ** A process error before the end *)



(** ** Deleting characters *)

Lemma subseq_refl (s : string) : subseq s s.
Proof. induction s; constructor; assumption. Qed.

Lemma subseq_empty (s : string) : subseq "" s.
Proof. induction s; constructor; assumption. Qed.

Lemma subseq_trans (a b c : string) : subseq a b -> subseq b c -> subseq a c.
Proof.
  intros Hab Hbc. revert a Hab.
  induction Hbc as [|x b c Hbc IH|x b c Hbc IH]; intros a Hab.
  - assumption.
  - inversion Hab; subst; constructor; apply IH; assumption.
  - constructor. apply IH. assumption.
Qed.

Lemma subseq_app (a a' b b' : string) :
  subseq a a' -> subseq b b' -> subseq (a ++ b) (a' ++ b').
Proof.
  intros Ha Hb. induction Ha; simpl; [assumption| |]; constructor; assumption.
Qed.

Lemma suffix_subseq (a b : string) : suffix a b -> subseq a b.
Proof.
  induction 1; [apply subseq_refl|]. constructor. assumption.
Qed.

Lemma srev_app (a b : string) : srev (a ++ b) = (srev b ++ srev a)%string.
Proof.
  induction a as [|c a IH]; simpl.
  - unfold srev at 3. simpl. rewrite append_nil_r. reflexivity.
  - rewrite !srev_cons, IH, append_assoc. reflexivity.
Qed.

Lemma srev_involutive (s : string) : srev (srev s) = s.
Proof.
  induction s as [|c s IH]; [reflexivity|].
  rewrite srev_cons, srev_app, IH. reflexivity.
Qed.

Lemma subseq_srev (a b : string) : subseq a b -> subseq (srev a) (srev b).
Proof.
  induction 1 as [|c a b H IH|c a b H IH].
  - constructor.
  - rewrite !srev_cons. apply subseq_app; [assumption|apply subseq_refl].
  - rewrite srev_cons.
    rewrite <- (append_nil_r (srev a)).
    apply subseq_app; [assumption|apply subseq_empty].
Qed.

Lemma trim_left_suffix (s : string) : suffix (trim_left s) s.
Proof.
  induction s as [|c s IH]; simpl; [constructor|].
  destruct (is_space c); constructor. assumption.
Qed.

Lemma subseq_trimmed (s : string) : subseq (trimmed s) s.
Proof.
  unfold trimmed.
  apply subseq_trans with (b := trim_left s);
    [|apply suffix_subseq, trim_left_suffix].
  rewrite <- (srev_involutive (trim_left s)) at 2.
  apply subseq_srev, suffix_subseq, trim_left_suffix.
Qed.

Lemma subseq_remove_matches (n : nat) (r : regex) (s : string) :
  subseq (remove_matches n r s) s.
Proof.
  revert s. induction n as [|n IH]; intros s; simpl; [apply subseq_refl|].
  destruct s as [|c s']; [constructor|].
  destruct (match_at r (String c s')) as [rest|] eqn:E;
    [|constructor; apply IH].
  destruct (String.length rest <? String.length (String c s'))%nat;
    [|constructor; apply IH].
  apply subseq_trans with (b := rest); [apply IH|].
  apply suffix_subseq, match_at_suffix with (r := r). assumption.
Qed.

Lemma subseq_prefix (a b : string) : subseq a (a ++ b).
Proof.
  rewrite <- (append_nil_r a) at 1.
  apply subseq_app; [apply subseq_refl|apply subseq_empty].
Qed.

Lemma subseq_app_l (a b : string) : subseq b (a ++ b).
Proof.
  induction a as [|c a IH]; simpl; [apply subseq_refl|].
  constructor. assumption.
Qed.

Lemma subseq_split_from (n : nat) (sep part s : string) :
  Forall (fun p => subseq p (srev part ++ s)) (split_from n sep part s).
Proof.
  revert part s. induction n as [|n IH]; intros part s; simpl.
  - constructor; [apply subseq_prefix|constructor].
  - destruct s as [|c s'].
    + constructor; [apply subseq_prefix|constructor].
    + destruct (strip_prefix sep (String c s')) as [rest|] eqn:E.
      * constructor; [apply subseq_prefix|].
        apply strip_prefix_suffix, suffix_subseq in E.
        eapply Forall_impl; [|apply (IH "" rest)].
        intros p Hp. simpl in Hp.
        apply subseq_trans with (b := String c s');
          [eapply subseq_trans; eassumption|].
        apply subseq_app_l.
      * specialize (IH (String c part) s').
        rewrite srev_cons, append_assoc in IH. exact IH.
Qed.

Lemma subseq_split (sep s : string) :
  Forall (fun p => subseq p s) (split sep s).
Proof. exact (subseq_split_from (String.length s) sep "" s). Qed.

Lemma Forall_last {A : Type} (P : A -> Prop) (l : list A) (d : A) :
  Forall P l -> P d -> P (List.last l d).
Proof.
  induction 1 as [|x l Hx Hl IH]; intros Hd; [assumption|].
  destruct l; [assumption|]. apply IH. assumption.
Qed.

Lemma subseq_contains (p : ascii -> bool) (a b : string) :
  subseq a b -> contains_char p a = true -> contains_char p b = true.
Proof.
  induction 1 as [|c a b H IH|c a b H IH]; simpl; [trivial| |].
  - intros Hc. apply orb_true_iff in Hc. apply orb_true_iff.
    destruct Hc; auto.
  - intros Hc. apply orb_true_iff. auto.
Qed.

(** ** Clean ends *)

Lemma trim_left_head (s : string) (c : ascii) (rest : string) :
  trim_left s = String c rest -> is_space c = false.
Proof.
  induction s as [|x s IH]; simpl; [discriminate|].
  destruct (is_space x) eqn:E; [assumption|].
  intros H. injection H as <- _. assumption.
Qed.

Lemma suffix_snoc (u x : string) (c : ascii) :
  suffix u (x ++ String c "") -> u = "" \/ exists u', u = (u' ++ String c "")%string.
Proof.
  revert u. induction x as [|d x IH]; intros u H; simpl in H.
  - inversion H; subst.
    + right. exists "". reflexivity.
    + match goal with H' : suffix _ "" |- _ => inversion H'; subst end.
      left. reflexivity.
  - inversion H; subst.
    + right. exists (String d x). reflexivity.
    + apply IH. assumption.
Qed.

Lemma trimmed_head (s : string) (c : ascii) (rest : string) :
  trimmed s = String c rest -> is_space c = false.
Proof.
  unfold trimmed. intros H.
  destruct (trim_left s) as [|d t] eqn:Et.
  - discriminate H.
  - pose proof (trim_left_head _ _ _ Et) as Hd.
    pose proof (trim_left_suffix (srev (String d t))) as Hs.
    rewrite srev_cons in Hs.
    destruct (suffix_snoc _ _ _ Hs) as [Hu | [u' Hu]].
    + rewrite srev_cons, Hu in H. discriminate H.
    + rewrite srev_cons, Hu, srev_app in H. simpl in H.
      unfold srev at 1 in H. simpl in H. injection H as <- _. assumption.
Qed.

Lemma trimmed_last (s init : string) (c : ascii) :
  trimmed s = (init ++ String c "")%string -> is_space c = false.
Proof.
  unfold trimmed. intros H.
  apply (f_equal srev) in H. rewrite srev_involutive, srev_app in H.
  unfold srev at 1 in H. simpl in H.
  eapply trim_left_head. eassumption.
Qed.

(** X14.  [parseOutput] only deletes: its result is the buffer with some
    characters removed, in the same order.  The result neither starts nor
    ends with a white-space character. *)
Theorem parseOutput_only_deletes (buffer : string) :
  subseq (parseOutput buffer) buffer
  /\ (forall c rest, parseOutput buffer = String c rest -> is_space c = false)
  /\ (forall init c,
        parseOutput buffer = (init ++ String c "")%string -> is_space c = false).
Proof.
  unfold parseOutput. split; [|split].
  - eapply subseq_trans; [apply subseq_trimmed|].
    eapply subseq_trans; [apply subseq_remove_matches|].
    apply Forall_last; [|apply subseq_empty].
    destruct (Z.of_nat (List.length (split "Press [q] to stop, [?] for help" buffer)) =? 1);
      apply subseq_split.
  - intros c rest. apply trimmed_head.
  - intros init c. apply trimmed_last.
Qed.

(** ** A literal, a repeated class, a lookahead *)

Section Pieces.
Variable recurse : string -> (string -> option string) -> option string.

Lemma go_Lit (p s : string) (k : string -> option string) :
  go recurse (Lit p) s k
  = match strip_prefix p s with Some rest => k rest | None => None end.
Proof.
  revert s. induction p as [|a p IH]; intros s; simpl; [reflexivity|].
  destruct s as [|b s]; [reflexivity|].
  unfold chr_is. destruct (Ascii.eqb a b); [apply IH|reflexivity].
Qed.

Lemma go_Star_Chr_cons (p : ascii -> bool) (c : ascii) (s : string)
  (k : string -> option string) :
  go recurse (Star (Chr p)) (String c s) k
  = if p c
    then match go recurse (Star (Chr p)) s k with
         | Some rest => Some rest
         | None => k (String c s)
         end
    else k (String c s).
Proof.
  simpl. destruct (p c); [|reflexivity].
  replace (String.length s <? S (String.length s))%nat with true
    by (symmetry; apply Nat.ltb_lt; lia).
  reflexivity.
Qed.

Lemma go_Star_Chr_nil (p : ascii -> bool) (k : string -> option string) :
  go recurse (Star (Chr p)) "" k = k "".
Proof. reflexivity. Qed.

Lemma go_Star_Chr_floor (p : ascii -> bool) (s : string)
  (k : string -> option string) :
  go recurse (Star (Chr p)) s k = None -> k s = None.
Proof.
  destruct s as [|c s]; [trivial|]. rewrite go_Star_Chr_cons.
  destruct (p c); [|trivial].
  destruct (go recurse (Star (Chr p)) s k); [discriminate|trivial].
Qed.

Lemma go_Star_Chr_complete (p : ascii -> bool) (u v : string)
  (k : string -> option string) :
  every p u = true -> k v <> None ->
  go recurse (Star (Chr p)) (u ++ v) k <> None.
Proof.
  intros Hu Hv. induction u as [|c u IH].
  - intros H. apply go_Star_Chr_floor in H. contradiction.
  - simpl in Hu. apply andb_true_iff in Hu. destruct Hu as [Hc Hu].
    change (String c u ++ v)%string with (String c (u ++ v)).
    rewrite go_Star_Chr_cons, Hc.
    destruct (go recurse (Star (Chr p)) (u ++ v) k) eqn:E;
      [discriminate|]. exfalso. apply IH; trivial.
Qed.

(** Greedy: the repetition stops at the last place the continuation
    accepts. *)
Lemma go_Star_Chr_greedy (p : ascii -> bool) (k : string -> option string) :
  (forall x y, k x = Some y -> y = x) ->
  forall s rest,
    go recurse (Star (Chr p)) s k = Some rest ->
    exists u,
      s = (u ++ rest)%string /\ every p u = true /\ k rest = Some rest
      /\ forall u' rest',
           s = (u' ++ rest')%string -> every p u' = true -> k rest' <> None ->
           (String.length u' <= String.length u)%nat.
Proof.
  intros Hk. induction s as [|c s IH]; intros rest H.
  - rewrite go_Star_Chr_nil in H. pose proof (Hk _ _ H) as ->.
    exists "". repeat split; trivial.
    intros u' rest' Hs _ _. destruct u'; [simpl; lia|discriminate].
  - rewrite go_Star_Chr_cons in H. destruct (p c) eqn:Hc.
    + destruct (go recurse (Star (Chr p)) s k) as [x|] eqn:E.
      * injection H as ->. destruct (IH _ eq_refl) as [u [Hs [Hu [Hr Hg]]]].
        exists (String c u). simpl. rewrite Hc. repeat split; trivial.
        -- congruence.
        -- intros u' rest' Hs' Hu' Hr'. destruct u' as [|d u']; [simpl; lia|].
           simpl in Hs', Hu'. injection Hs' as <- Hs'.
           apply andb_true_iff in Hu'. destruct Hu' as [_ Hu'].
           simpl. apply le_n_S. eapply Hg; eassumption.
      * pose proof (Hk _ _ H) as ->. exists "". repeat split; trivial.
        intros u' rest' Hs' Hu' Hr'. destruct u' as [|d u']; [simpl; lia|].
        simpl in Hs', Hu'. injection Hs' as <- Hs'.
        apply andb_true_iff in Hu'. destruct Hu' as [_ Hu'].
        exfalso. apply (go_Star_Chr_complete p u' rest' k Hu' Hr').
        rewrite <- Hs'. assumption.
    + pose proof (Hk _ _ H) as ->. exists "". repeat split; trivial.
      intros u' rest' Hs' Hu' _. destruct u' as [|d u']; [simpl; lia|].
      simpl in Hs', Hu'. injection Hs' as <- Hs'. rewrite Hc in Hu'.
      discriminate.
Qed.

Lemma ahead_dot_eq (s : string) : ahead_dot recurse s = starts_with_dot s.
Proof.
  destruct s as [|c s]; [reflexivity|].
  change (ahead_dot recurse (String c s))
    with (match (if chr_is "." c then Some s else None) with
          | Some _ => Some (String c s)
          | None => None
          end).
  unfold starts_with_dot. destruct (chr_is "." c); reflexivity.
Qed.

Lemma go_extensions_regex (s : string) :
  go recurse extensions_regex s Some
  = match strip_prefix extensions_prefix s with
    | Some (String c rest) =>
        if is_dot c
        then go recurse (Star (Chr is_dot)) rest (ahead_dot recurse)
        else None
    | _ => None
    end.
Proof.
  unfold extensions_regex.
  change (go recurse (Seq (Lit extensions_prefix)
                        (Seq (Plus (Chr is_dot)) (Ahead (Chr (chr_is ".")))))
             s Some)
    with (go recurse (Lit extensions_prefix) s
            (fun s1 => go recurse (Chr is_dot) s1
               (fun s2 => go recurse (Star (Chr is_dot)) s2 (ahead_dot recurse)))).
  rewrite go_Lit.
  destruct (strip_prefix extensions_prefix s) as [[|c rest]|]; reflexivity.
Qed.
End Pieces.

Lemma strip_prefix_app (p rest : string) :
  strip_prefix p (p ++ rest) = Some rest.
Proof.
  induction p as [|a p IH]; simpl; [reflexivity|].
  rewrite Ascii.eqb_refl. assumption.
Qed.

Lemma strip_prefix_inv (p s rest : string) :
  strip_prefix p s = Some rest -> s = (p ++ rest)%string.
Proof.
  revert s. induction p as [|a p IH]; intros s; simpl.
  - intros H. injection H as ->. reflexivity.
  - destruct s as [|b s]; [discriminate|].
    destruct (Ascii.eqb a b) eqn:E; [|discriminate].
    apply Ascii.eqb_eq in E. subst b. intros H. f_equal. apply IH. assumption.
Qed.

Lemma every_app (p : ascii -> bool) (a b : string) :
  every p (a ++ b) = every p a && every p b.
Proof.
  induction a as [|c a IH]; simpl; [reflexivity|].
  rewrite IH, andb_assoc. reflexivity.
Qed.

Lemma starts_with_dot_inv (s y : string) :
  starts_with_dot s = Some y ->
  y = s /\ exists after, s = String "." after.
Proof.
  destruct s as [|c s]; unfold starts_with_dot; [discriminate|].
  destruct (chr_is "." c) eqn:E; [|discriminate].
  apply Ascii.eqb_eq in E. subst c. intros H. injection H as <-.
  split; [reflexivity|]. exists s. reflexivity.
Qed.

Lemma match_at_extensions_sound (s rest : string) :
  match_at extensions_regex s = Some rest ->
  exists listed after,
    s = (extensions_prefix ++ listed ++ "." ++ after)%string
    /\ rest = ("." ++ after)%string
    /\ listed <> ""
    /\ every is_dot listed = true
    /\ forall x y, after = (x ++ "." ++ y)%string -> every is_dot x = false.
Proof.
  unfold match_at, rmatch. rewrite go_extensions_regex.
  destruct (strip_prefix extensions_prefix s) as [[|c s2]|] eqn:Ep;
    try discriminate.
  apply strip_prefix_inv in Ep.
  destruct (is_dot c) eqn:Ec; [|discriminate].
  intros H. apply go_Star_Chr_greedy in H.
  2:{ intros x y Hxy. rewrite ahead_dot_eq in Hxy.
      apply starts_with_dot_inv in Hxy. apply Hxy. }
  destruct H as [u [Hs [Hu [Hr Hg]]]].
  rewrite ahead_dot_eq in Hr. apply starts_with_dot_inv in Hr.
  destruct Hr as [_ [after Hr]].
  exists (String c u), after. repeat split.
  - rewrite Ep, Hs, Hr. reflexivity.
  - assumption.
  - discriminate.
  - simpl. rewrite Ec, Hu. reflexivity.
  - intros x y Hafter. destruct (every is_dot x) eqn:Ex; [|reflexivity].
    exfalso.
    assert (Hlen : (String.length (u ++ "." ++ x)
                    <= String.length u)%nat).
    { apply (Hg (u ++ "." ++ x)%string (String "." y)).
      - rewrite Hs, Hr, Hafter, !append_assoc. reflexivity.
      - rewrite !every_app, Hu, Ex. reflexivity.
      - rewrite ahead_dot_eq. discriminate. }
    rewrite !length_append in Hlen. simpl in Hlen. lia.
Qed.

Lemma match_at_extensions_complete (listed after : string) :
  listed <> "" -> every is_dot listed = true ->
  match_at extensions_regex
    (extensions_prefix ++ listed ++ "." ++ after) <> None.
Proof.
  intros Hl He. unfold match_at, rmatch.
  rewrite go_extensions_regex, strip_prefix_app.
  destruct listed as [|c u]; [contradiction|].
  simpl in He. apply andb_true_iff in He. destruct He as [Hc Hu].
  change (String c u ++ "." ++ after)%string
    with (String c (u ++ "." ++ after)).
  cbv beta iota. rewrite Hc.
  apply go_Star_Chr_complete; [assumption|].
  rewrite ahead_dot_eq. discriminate.
Qed.

Lemma split_comma_head (n : nat) (part s : string) :
  exists first tail,
    split_from n "," part s = (srev part ++ first)%string :: tail
    /\ (String.length s <= n -> up_to_comma s first)%nat.
Proof.
  revert part s. induction n as [|n IH]; intros part s.
  - exists "", []. simpl. rewrite append_nil_r. split; [reflexivity|].
    intros Hn. destruct s; [|simpl in Hn; lia].
    split; [reflexivity|left; reflexivity].
  - destruct s as [|c s].
    + exists "", []. simpl. rewrite append_nil_r. split; [reflexivity|].
      intros _. split; [reflexivity|left; reflexivity].
    + change (split_from (S n) "," part (String c s))
        with (match (if Ascii.eqb "," c then Some s else None) with
              | Some rest => srev part :: split_from n "," "" rest
              | None => split_from n "," (String c part) s
              end).
      destruct (Ascii.eqb "," c) eqn:E.
      * apply Ascii.eqb_eq in E. subst c.
        exists "", (split_from n "," "" s). rewrite append_nil_r.
        split; [reflexivity|]. intros _.
        split; [reflexivity|]. right. exists s. reflexivity.
      * destruct (IH (String c part) s) as [first [tail [Hsplit Hfirst]]].
        exists (String c first), tail. split.
        -- rewrite Hsplit, srev_cons, append_assoc. reflexivity.
        -- intros Hn. simpl in Hn. destruct Hfirst as [Hno Hcut]; [lia|].
           split.
           ++ change (contains_char (chr_is ",") (String c first))
                with (chr_is "," c || contains_char (chr_is ",") first).
              unfold chr_is at 1. rewrite E, Hno. reflexivity.
           ++ destruct Hcut as [-> | [more ->]];
                [left; reflexivity|right; exists more; reflexivity].
Qed.

Lemma split_comma (s : string) :
  exists first tail, split "," s = first :: tail /\ up_to_comma s first.
Proof.
  destruct (split_comma_head (String.length s) "" s)
    as [first [tail [Hsplit Hfirst]]].
  exists first, tail. split; [exact Hsplit|]. apply Hfirst. lia.
Qed.

(** X15.  [extensionForContainer] returns an extension exactly when
    ffmpeg answered in time and its standard output holds
    "Common extensions: " followed by a non-empty text without a newline
    and a dot.  The extension is then read at the leftmost such place, the
    listed text runs up to the last dot of its line, and the extension is
    the listed text up to its first comma, trimmed.  In every other case
    the result is a critical message. *)
Theorem extensionForContainer_answer (w : World) (container : Container.t) :
  let answer :=
    muxer_help w (qs "ffmpeg -hide_banner -h muxer="
                  ++ qs (Container.formatName container)) in
  let result := fst (fst answer) in
  let stdout := snd (fst answer) in
  match extensionForContainer w container with
  | inl extension =>
      result = true
      /\ exists before listed after first,
           lists_extensions stdout before listed after
           /\ (forall before' listed' after',
                 lists_extensions stdout before' listed' after' ->
                 (String.length before <= String.length before')%nat)
           /\ (forall x y, after = (x ++ "." ++ y)%string ->
                           every is_dot x = false)
           /\ up_to_comma listed first
           /\ extension = trimmed first
  | inr failure =>
      Message.severity failure = Message.Critical
      /\ (result = false
          \/ forall before listed after,
               ~ lists_extensions stdout before listed after)
  end.
Proof.
  unfold extensionForContainer.
  destruct (muxer_help w _) as [[result stdout] stderr]. cbv zeta. simpl fst. simpl snd.
  destruct result; simpl negb; cbv iota.
  2:{ split; [reflexivity|left; reflexivity]. }
  destruct (search extensions_regex stdout) as [[[before matched] rest]|] eqn:Es.
  - pose proof (search_leftmost _ _ _ _ _ Es) as Hleft.
    apply search_sound in Es. destruct Es as [Hs Hm].
    destruct (match_at_extensions_sound _ _ Hm)
      as [listed [after [Hshape [Hrest [Hl [He Hgreedy]]]]]].
    assert (Hmatched : matched = (extensions_prefix ++ listed)%string).
    { subst rest. apply append_cancel_r with (c := ("." ++ after)%string).
      rewrite append_assoc. exact Hshape. }
    assert (Hcaptured :
              drop (String.length extensions_prefix) matched = listed).
    { rewrite Hmatched. apply drop_append. }
    rewrite Hcaptured.
    destruct (split_comma listed) as [first [tail [Hsplit Hfirst]]].
    rewrite Hsplit. split; [reflexivity|].
    exists before, listed, after, first. repeat split; trivial.
    + rewrite Hs, Hshape. reflexivity.
    + intros before' listed' after' [Hs' [Hl' He']].
      destruct (Nat.le_gt_cases (String.length before) (String.length before'))
        as [Hle|Hlt]; [assumption|exfalso].
      rewrite Hs in Hs'. symmetry in Hs'.
      destruct (append_overlap _ _ _ _ Hs' Hlt) as [q [Hq [Hne Hx]]].
      pose proof (Hleft _ _ Hq Hne) as Hnone. rewrite <- Hx in Hnone.
      exact (match_at_extensions_complete _ _ Hl' He' Hnone).
    + apply Hfirst.
    + apply Hfirst.
  - split; [reflexivity|]. right.
    intros before listed after [Hs [Hl He]].
    exact (match_at_extensions_complete _ _ Hl He
             (search_none _ _ Es _ _ Hs)).
Qed.

(** ** Requests that are well defined *)

Lemma validateOptions_defined (options : Options.t) :
  Options.fps options <> None ->
  validateOptions options = Done (true, [])
  \/ exists log, validateOptions options = Done (false, log).
Proof.
  intros Hfps.
  assert (Hs : speed_message_undefined options = false).
  { unfold speed_message_undefined.
    destruct (Options.speed options); [|reflexivity].
    destruct (Options.fps options); [reflexivity|contradiction]. }
  destruct (acceptable options) eqn:Ea.
  - left. apply validateOptions_accepted. assumption.
  - right. destruct (validateOptions_rejected _ Hs Ea) as [error [_ H]].
    eexists. exact H.
Qed.

Lemma Encode_plan_defined (options : Options.t) (metadata : Metadata.t) :
  (Options.sizeKbps options <> None ->
   Options.videoCodec options <> None
   /\ exists ratio, computePixelRatio options metadata = Done ratio) ->
  exists computed,
    Encode_plan options metadata = Done (Some computed)
    /\ (Options.sizeKbps options <> None ->
        ComputedOptions.videoBitrateKbps computed <> None).
Proof.
  intros H. unfold Encode_plan.
  destruct (Options.sizeKbps options) as [size|] eqn:Es.
  - destruct H as [Hv [ratio Hr]]; [discriminate|].
    destruct (Options.videoCodec options) as [v|] eqn:Ev; [|contradiction].
    destruct (has_value (Options.audioCodec options)); cbn - [ComputeVideoBitrate];
      unfold ComputeVideoBitrate; rewrite Hr, Es; simpl;
      eexists; (split; [reflexivity|]); simpl; discriminate.
  - rewrite andb_false_r.
    destruct (has_value (Options.audioCodec options)); simpl;
      eexists; (split; [reflexivity|]); intros Hn; contradiction.
Qed.

Lemma StartCompression_defined (w : World) (options : Options.t)
  (computed : ComputedOptions.t) (metadata : Metadata.t) (e : Encoder) :
  Options.fps options <> None ->
  Options.container options <> None ->
  Options.customArguments options <> None ->
  (Options.sizeKbps options <> None ->
   ComputedOptions.videoBitrateKbps computed <> None) ->
  exists r, StartCompression w options computed metadata e = Done r.
Proof.
  intros Hf Hc Ha Hv. unfold StartCompression.
  assert (Hb : exists p,
             (if has_value (Options.sizeKbps options)
              then obind (deref "computed.videoBitrateKbps"
                            (ComputedOptions.videoBitrateKbps computed))
                         (fun v => Done (qs "-b:v " ++ number v ++ qs "k"))
              else Done (qs "")) = Done p).
  { destruct (Options.sizeKbps options); simpl; [|eexists; reflexivity].
    destruct (ComputedOptions.videoBitrateKbps computed);
      [simpl; eexists; reflexivity|].
    exfalso. apply Hv; [discriminate|reflexivity]. }
  destruct Hb as [p ->]. simpl.
  destruct (Options.container options) as [c|]; [|contradiction]. simpl.
  destruct (Options.fps options) as [f|]; [|contradiction]. simpl.
  destruct (extensionForContainer w c); [|eexists; reflexivity].
  destruct (Options.customArguments options); [|contradiction]. simpl.
  eexists. reflexivity.
Qed.

(** X16.  A request with a frame rate, a container and custom arguments
    is well defined, provided that a target size comes with a video codec
    and with options for which the pixel ratio of the input is defined:
    [Encode] returns, no empty optional is dereferenced and no conversion
    is undefined. *)
Theorem Encode_defined (w : World) (options : Options.t) (e : Encoder) :
  Options.fps options <> None ->
  Options.container options <> None ->
  Options.customArguments options <> None ->
  (forall metadata,
     input_metadata w options = inl metadata ->
     Options.sizeKbps options <> None ->
     Options.videoCodec options <> None
     /\ exists ratio, computePixelRatio options metadata = Done ratio) ->
  exists r, Encode w options e = Done r.
Proof.
  intros Hf Hc Ha Hsize. unfold Encode.
  destruct (validateOptions_defined options Hf) as [-> | [log ->]]; simpl;
    [|eexists; reflexivity].
  unfold input_metadata in Hsize.
  assert (Hcase :
            forall (result : Metadata.t + Metadata.Error)
                   (log1 : list Notification),
              (forall metadata, result = inl metadata ->
                 Options.sizeKbps options <> None ->
                 Options.videoCodec options <> None
                 /\ exists ratio, computePixelRatio options metadata = Done ratio) ->
              exists r,
                match result with
                | inl metadata =>
                    obind (Encode_plan options metadata)
                      (fun plan =>
                         match plan with
                         | Some computed =>
                             obind (StartCompression w options computed metadata e)
                               (fun r => Done (fst r, [] ++ log1 ++ snd r))
                         | None => Done (e, [] ++ log1)
                         end)
                | inr error =>
                    Done (e, [] ++ log1
                             ++ [encodingFailed (Metadata.summary error)
                                                (Metadata.details error)])
                end = Done r).
  { intros [metadata|error] log1 Hm; [|eexists; reflexivity].
    destruct (Encode_plan_defined options metadata (Hm metadata eq_refl))
      as [computed [-> Hv]]. simpl.
    destruct (StartCompression_defined w options computed metadata e
                Hf Hc Ha Hv) as [r ->].
    simpl. eexists. reflexivity. }
  destruct (Options.inputMetadata options) as [m|].
  - apply (Hcase (inl m) []). assumption.
  - destruct (getMetadata w (Options.inputPath options)) as [result log1] eqn:Eg.
    apply (Hcase result log1). simpl in Hsize. assumption.
Qed.

Lemma Encode_defined_witness :
  exists r,
    Encode (world None) (size_request (Some 100) (Some 90) (Some 30) (Some ""))
           new_Encoder = Done r.
Proof.
  apply Encode_defined; try discriminate.
  intros metadata Hm _. split; [discriminate|].
  injection Hm as <-. eexists. vm_compute. reflexivity.
Defined.

(** ** A duration of zero *)

Lemma trunc_div_zero (x d : double) :
  PrimFloat.eqb d 0%float = true -> trunc (x / d)%float = None.
Proof.
  intros H. unfold trunc. rewrite FloatAxioms.div_spec.
  rewrite FloatAxioms.eqb_spec in H.
  replace (Prim2SF 0) with (S754_zero false) in H by (vm_compute; reflexivity).
  destruct (Prim2SF d) as [s|[|]| |[|] m ex]; try discriminate H.
  destruct (Prim2SF x); reflexivity.
Qed.

(** X17.  When the duration of the input is zero, every chunk that holds
    a timestamp makes [UpdateProgress] convert an infinity or a NaN to
    [int]: the progress is undefined.  A chunk without a timestamp is only
    appended to the buffer. *)
Theorem UpdateProgress_zero_duration (mediaDuration : double) (line : string)
  (e : Encoder) :
  PrimFloat.eqb mediaDuration 0%float = true ->
  UpdateProgress mediaDuration line e
  = match time_captured line with
    | Some _ => Undefined (DoubleToIntegral "progressPercent")
    | None => Done (appended e line, [])
    end.
Proof.
  intros H. unfold UpdateProgress.
  destruct (time_captured line) as [t|]; [|reflexivity].
  cbv zeta. rewrite scaled_duration_is_int.
  change (obind (Done ?a) ?f) with (f a). cbv beta.
  unfold double_to_int. rewrite (trunc_div_zero _ _ H). reflexivity.
Qed.

Lemma UpdateProgress_zero_duration_witness :
  UpdateProgress 0%float sample_chunk new_Encoder
  = Undefined (DoubleToIntegral "progressPercent").
Proof.
  exact (UpdateProgress_zero_duration 0%float sample_chunk new_Encoder eq_refl).
Defined.

(** ** The diagnostic of a buffer without noise *)








(** ** What trimming leaves *)









